(** * FGSM tutorial: the attack, the (de)normalisation and the test loop

    A shallow embedding of the code cells of [fgsm_tutorial.ipynb]:
    [fgsm_attack], [denorm], the [transforms.Normalize] step and [test].

    Numbers.  Tensor entries and [epsilon] are modelled in exact arithmetic,
    as canonical rationals [Qc] (equality is Leibniz equality, every
    operation computes).  Two further embeddings of the same cells cover
    what exact arithmetic leaves out: the attack on images whose pixels may
    be NaN ([fgsm_attack_nan]), and the attack, the (de)normalisation and
    the loop on 32-bit floats, every operation rounded to the nearest float
    ([fgsm_attack32], [denorm32], [Normalize32], [test32]).  Where rounding
    or a NaN changes a property, the property is stated for the embedding
    it holds in.

    Tensors.  The tensors of the notebook are batches in NCHW layout; a
    tensor is a list of images, an image a list of channels, a channel a
    list of rows.  Element-wise binary operations follow the framework's
    broadcasting rule dimension by dimension: equal sizes are zipped, a
    dimension of size 1 is stretched, anything else raises.  The rule is
    applied list by list, which for the rectangular tensors of the
    framework is the rule on shapes; the sizes of the dimensions below an
    empty one are not represented.

    The network and the automatic differentiation are the framework's:
    the forward pass and the gradient of the loss with respect to the input
    are parameters of the loop. *)

From Stdlib Require Import List Arith Bool Lia PeanoNat.
From Stdlib Require Import ZArith QArith Qcanon Lqa Permutation.
From Stdlib Require Qcabs.
Import ListNotations.

(** ** Exceptions and results *)

Inductive exn : Type :=
| RuntimeError        (* shape mismatch, empty reduction *)
| ValueError          (* Normalize with a zero std *)
| ZeroDivisionError.  (* correct / float(0) *)

Inductive result (A : Type) : Type :=
| Ok (a : A)
| Raise (e : exn).

Arguments Ok {A} a.
Arguments Raise {A} e.

Definition rbind {A B} (r : result A) (k : A -> result B) : result B :=
  match r with
  | Ok a => k a
  | Raise e => Raise e
  end.

Definition rmap {A B} (f : A -> B) (r : result A) : result B :=
  rbind r (fun a => Ok (f a)).

Fixpoint mapM {A B} (f : A -> result B) (l : list A) : result (list B) :=
  match l with
  | [] => Ok []
  | x :: l' => rbind (f x) (fun y => rbind (mapM f l') (fun ys => Ok (y :: ys)))
  end.

(** ** Scalars *)

Open Scope Qc_scope.

Definition Qc_ltb (x y : Qc) : bool :=
  match x ?= y with Lt => true | _ => false end.

(** [Tensor.sign]: -1, 0 or 1. *)
Definition sign (x : Qc) : Qc :=
  match x ?= 0 with
  | Lt => Qcopp 1
  | Eq => 0
  | Gt => 1
  end.

Definition Qcmax (x y : Qc) : Qc := if Qc_ltb x y then y else x.
Definition Qcmin (x y : Qc) : Qc := if Qc_ltb y x then y else x.

(** [torch.clamp(x, lo, hi)] on one entry: [min(max(x, lo), hi)]. *)
Definition clamp (x lo hi : Qc) : Qc := Qcmin (Qcmax x lo) hi.

(** ** Tensors and broadcasting *)

Definition Row := list Qc.
Definition Channel := list Row.
Definition Image := list Channel.
Definition Tensor := list Image.

Definition tmap (f : Qc -> Qc) (t : Tensor) : Tensor :=
  map (map (map (map f))) t.

(** One dimension of a broadcast binary operation. *)
Definition broadcast {A B C} (f : A -> B -> result C)
    (xs : list A) (ys : list B) : result (list C) :=
  if length xs =? length ys
  then mapM (fun p => f (fst p) (snd p)) (combine xs ys)
  else match xs, ys with
       | [x], _ => mapM (f x) ys
       | _, [y] => mapM (fun x => f x y) xs
       | _, _ => Raise RuntimeError
       end.

(** One dimension of an in-place operation ([sub_], [div_]): the left
    operand keeps its size, only the right one may be stretched. *)
Definition broadcast_ {A B} (f : A -> B -> result A)
    (xs : list A) (ys : list B) : result (list A) :=
  if length xs =? length ys
  then mapM (fun p => f (fst p) (snd p)) (combine xs ys)
  else match ys with
       | [y] => mapM (fun x => f x y) xs
       | _ => Raise RuntimeError
       end.

Definition lift4 {A B C} (f : A -> B -> result C) :=
  broadcast (broadcast (broadcast (broadcast f))).

Definition lift4_ {A B} (f : A -> B -> result A) :=
  broadcast_ (broadcast_ (broadcast_ (broadcast_ f))).

(** [a op b] on tensors. *)
Definition pointwise (op : Qc -> Qc -> Qc) (a b : Tensor) : result Tensor :=
  lift4 (fun x y => Ok (op x y)) a b.

(** [a.op_(b)] on tensors. *)
Definition pointwise_ (op : Qc -> Qc -> Qc) (a b : Tensor) : result Tensor :=
  lift4_ (fun x y => Ok (op x y)) a b.

(** [torch.tensor(l).view(1, -1, 1, 1)]; also [view(-1, 1, 1)], whose
    missing leading dimension broadcasts as a dimension of size 1. *)
Definition view (l : list Qc) : Tensor := [map (fun m => [[m]]) l].

(** ** The attack *)

(** [fgsm_attack(image, epsilon, data_grad)]. *)
Definition fgsm_attack (image : Tensor) (epsilon : Qc) (data_grad : Tensor)
  : result Tensor :=
  let sign_data_grad := tmap sign data_grad in
  rbind (pointwise Qcplus image (tmap (Qcmult epsilon) sign_data_grad))
    (fun perturbed_image =>
       let perturbed_image := tmap (fun x => clamp x 0 1) perturbed_image in
       Ok perturbed_image).

(** The element-wise reading of the attack: every pixel is moved by
    [epsilon] times the sign of its gradient entry, then clipped. *)
Definition fgsm_pixel (epsilon x g : Qc) : Qc :=
  clamp (x + epsilon * sign g) 0 1.

Definition fgsm_elementwise (image : Tensor) (epsilon : Qc)
    (data_grad : Tensor) : result Tensor :=
  pointwise (fgsm_pixel epsilon) image data_grad.

(** Entry-by-entry combination of two tensors of one shape. *)
Definition map2 {A B C} (f : A -> B -> C) (xs : list A) (ys : list B) : list C :=
  map (fun p => f (fst p) (snd p)) (combine xs ys).

Definition tmap2 (f : Qc -> Qc -> Qc) : Tensor -> Tensor -> Tensor :=
  map2 (map2 (map2 (map2 f))).

(** ** Normalisation *)

Definition mnist_mean : Qc := Q2Qc (1307 # 10000).
Definition mnist_std : Qc := Q2Qc (3081 # 10000).

(** [denorm(batch, mean, std)]:
    [batch * std.view(1, -1, 1, 1) + mean.view(1, -1, 1, 1)]. *)
Definition denorm (batch : Tensor) (mean std : list Qc) : result Tensor :=
  rbind (pointwise Qcmult batch (view std))
    (fun scaled => pointwise Qcplus scaled (view mean)).

(** [transforms.Normalize(mean, std)(tensor)], as torchvision computes
    it: a zero entry of [std] is rejected, then
    [tensor.clone().sub_(mean).div_(std)] with [mean] and [std] viewed as
    [(-1, 1, 1)]. *)
Definition Normalize (mean std : list Qc) (tensor : Tensor) : result Tensor :=
  if existsb (fun s => Qc_eq_bool s 0) std then Raise ValueError
  else rbind (pointwise_ Qcminus tensor (view mean))
         (fun centred => pointwise_ Qcdiv centred (view std)).

(** ** The test loop *)

(** One batch of the loader ([batch_size=1]): the normalised image and its
    label.  [.to(device)] moves a tensor and leaves its entries as they
    are, so the device is not part of the model. *)
Record Sample : Type := { data : Tensor; target : nat }.

(** [output.max(1, keepdim=True)[1].item()] on the single row of the
    output: the index of the first largest entry. *)
Fixpoint argmax_from (best_i : nat) (best : Qc) (i : nat) (l : list Qc) : nat :=
  match l with
  | [] => best_i
  | x :: l' =>
      if Qc_ltb best x then argmax_from i x (S i) l'
      else argmax_from best_i best (S i) l'
  end.

Definition argmax (l : list Qc) : result nat :=
  match l with
  | [] => Raise RuntimeError
  | x :: l' => Ok (argmax_from 0 x 1 l')
  end.

(** A numpy array: its shape and its entries in row-major order. *)
Definition ndarray : Type := (list nat * list Qc)%type.

Definition shape (t : Tensor) : list nat :=
  [ length t; length (hd [] t); length (hd [] (hd [] t));
    length (hd [] (hd [] (hd [] t))) ].

Definition flatten (t : Tensor) : list Qc := concat (concat (concat t)).

(** [t.squeeze().detach().cpu().numpy()]: the dimensions of size 1 go. *)
Definition squeeze (t : Tensor) : ndarray :=
  (filter (fun d => negb (d =? 1)) (shape t), flatten t).

(** An entry of [adv_examples]: [(init_pred, final_pred, adv_ex)]. *)
Definition AdvExample : Type := (nat * nat * ndarray)%type.

(** The passes through the network made for one sample. *)
Inductive pass : Type := ForwardPass | BackwardPass.

(** Computations of the loop body: a result or an exception, together
    with the passes made so far. *)
Definition M (A : Type) : Type := (result A * list pass)%type.

Definition ret {A} (a : A) : M A := (Ok a, []).

Definition bind {A B} (m : M A) (k : A -> M B) : M B :=
  match m with
  | (Ok a, w) => let (r, w') := k a in (r, w ++ w')
  | (Raise e, w) => (Raise e, w)
  end.

Definition lift {A} (r : result A) : M A := (r, []).

Declare Scope test_scope.
Delimit Scope test_scope with test.
Notation "x <- m ;; k" := (bind m (fun x => k))
  (at level 61, m at next level, right associativity) : test_scope.

Section Test.
(** The network in evaluation mode: the row of scores of the one image
    of the batch. *)
Variable model : Tensor -> list Qc.
(** [data.grad] after [loss.backward()]: the gradient of the loss of the
    batch for its label, with respect to the batch. *)
Variable input_grad : Tensor -> nat -> Tensor.

Definition forward (x : Tensor) : M (list Qc) := (Ok (model x), [ForwardPass]).

Definition backward (x : Tensor) (t : nat) : M Tensor :=
  (Ok (input_grad x t), [BackwardPass]).

Open Scope test_scope.

(** The body of [for data, target in test_loader], from the loop state
    [(correct, adv_examples)] to the next one.  [requires_grad],
    [nll_loss] and [zero_grad] prepare the backward pass and are part of
    [backward]. *)
Definition test_body (epsilon : Qc) (st : nat * list AdvExample) (s : Sample)
  : M (nat * list AdvExample) :=
  let '(correct, adv_examples) := st in
  output <- forward (data s) ;;
  init_pred <- lift (argmax output) ;;
  if negb (init_pred =? target s) then ret (correct, adv_examples)
  else
    data_grad <- backward (data s) (target s) ;;
    data_denorm <- lift (denorm (data s) [mnist_mean] [mnist_std]) ;;
    perturbed_data <- lift (fgsm_attack data_denorm epsilon data_grad) ;;
    perturbed_data_normalized <-
      lift (Normalize [mnist_mean] [mnist_std] perturbed_data) ;;
    output <- forward perturbed_data_normalized ;;
    final_pred <- lift (argmax output) ;;
    if final_pred =? target s then
      let correct := S correct in
      if Qc_eq_bool epsilon 0 && (length adv_examples <? 5) then
        let adv_ex := squeeze perturbed_data in
        ret (correct, adv_examples ++ [(init_pred, final_pred, adv_ex)])
      else ret (correct, adv_examples)
    else
      if length adv_examples <? 5 then
        let adv_ex := squeeze perturbed_data in
        ret (correct, adv_examples ++ [(init_pred, final_pred, adv_ex)])
      else ret (correct, adv_examples).

(** The [for] loop; [log] records, per sample taken from the loader, the
    passes made for it. *)
Fixpoint test_loop (epsilon : Qc) (test_loader : list Sample)
    (st : nat * list AdvExample) (log : list (Sample * list pass))
  : result (nat * list AdvExample) * list (Sample * list pass) :=
  match test_loader with
  | [] => (Ok st, log)
  | s :: rest =>
      match test_body epsilon st s with
      | (Ok st', w) => test_loop epsilon rest st' (log ++ [(s, w)])
      | (Raise e, w) => (Raise e, log ++ [(s, w)])
      end
  end.

(** [correct/float(len(test_loader))]. *)
Definition final_acc (correct n : nat) : result Qc :=
  if n =? 0 then Raise ZeroDivisionError
  else Ok (Q2Qc (Z.of_nat correct # Pos.of_nat n)).

(** [test(model, device, test_loader, epsilon)], with the log of passes
    next to the returned pair.  The [print] of the accuracy is output only
    and is left out. *)
Definition test (test_loader : list Sample) (epsilon : Qc)
  : result (Qc * list AdvExample) * list (Sample * list pass) :=
  let (r, log) := test_loop epsilon test_loader (0%nat, []) [] in
  (rbind r (fun '(correct, adv_examples) =>
      rbind (final_acc correct (length test_loader))
        (fun acc => Ok (acc, adv_examples))),
   log).

(** *** Reference notions for the claims about [test] *)

(** The prediction of the network on a batch. *)
Definition predict (x : Tensor) : result nat := argmax (model x).

(** The perturbed image on the original scale. *)
Definition perturbed (epsilon : Qc) (s : Sample) : result Tensor :=
  rbind (denorm (data s) [mnist_mean] [mnist_std]) (fun data_denorm =>
    fgsm_attack data_denorm epsilon (input_grad (data s) (target s))).

(** The perturbed, re-normalised image the network sees again. *)
Definition attacked (epsilon : Qc) (s : Sample) : result Tensor :=
  rbind (perturbed epsilon s) (Normalize [mnist_mean] [mnist_std]).

Definition is_label (t : nat) (r : result nat) : bool :=
  match r with Ok p => p =? t | Raise _ => false end.

(** Correctly classified before the attack. *)
Definition init_correct (s : Sample) : bool :=
  is_label (target s) (predict (data s)).

(** Correctly classified before the attack and still after it. *)
Definition still_correct (epsilon : Qc) (s : Sample) : bool :=
  init_correct s &&
  is_label (target s) (rbind (attacked epsilon s) predict).

Definition count_correct (epsilon : Qc) (l : list Sample) : nat :=
  length (filter (still_correct epsilon) l).

Definition count_pass (p : pass) (w : list pass) : nat :=
  length (filter (fun q => match p, q with
                           | ForwardPass, ForwardPass => true
                           | BackwardPass, BackwardPass => true
                           | _, _ => false
                           end) w).
End Test.

(** Predicates on tensors, entry by entry. *)
Definition tForall (P : Qc -> Prop) : Tensor -> Prop :=
  Forall (Forall (Forall (Forall P))).

Definition tForall2 (R : Qc -> Qc -> Prop) : Tensor -> Tensor -> Prop :=
  Forall2 (Forall2 (Forall2 (Forall2 R))).

Definition same_shape : Tensor -> Tensor -> Prop :=
  tForall2 (fun _ _ => True).

Definition in_unit (x : Qc) : Prop := 0 <= x <= 1.

(** A sample whose pixels lie in [0, 1] on the original scale, as those
    the loader makes with [ToTensor] followed by [Normalize]. *)
Definition in_range (s : Sample) : Prop :=
  exists d, denorm (data s) [mnist_mean] [mnist_std] = Ok d /\ tForall in_unit d.

(** An entry of [adv_examples] made from a sample of the loader whose
    label the network found before the attack and lost after it. *)
Definition adversarial_entry (l : list Sample) (e : AdvExample) : Prop :=
  exists s, In s l /\ fst (fst e) = target s /\ snd (fst e) <> target s.

(** An entry made from a sample of the loader whose label the network
    found before the attack and still finds after it. *)
Definition faithful_entry (l : list Sample) (e : AdvExample) : Prop :=
  exists s, In s l /\ fst (fst e) = target s /\ snd (fst e) = target s.

(** The passes the loop makes for a sample. *)
Definition passes_of (init_ok : bool) : list pass :=
  if init_ok then [ForwardPass; BackwardPass; ForwardPass] else [ForwardPass].

(** The accuracy of the network on the unperturbed test set. *)
Definition clean_correct (model : Tensor -> list Qc) (l : list Sample) : nat :=
  length (filter (init_correct model) l).

(** ** A small network for concrete runs

    One input pixel, two classes.  With [d] the pixel on the original
    scale, the score of class 0 is [|d - c| - r], computed with two
    rectified units, and the score of class 1 is [0]: class 1 is predicted
    strictly inside the interval of radius [r] around [c], class 0
    elsewhere.  The log-softmax of
    the notebook's network is increasing in each score, so it changes
    neither the prediction nor the sign of the gradient and is left out. *)

Definition relu (z : Qc) : Qc := Qcmax z 0.

Definition notch_model (c r : Qc) (t : Tensor) : list Qc :=
  match flatten t with
  | [x] =>
      let d := x * mnist_std + mnist_mean in
      [relu (d - c) + relu (c - d) - r; 0]
  | _ => [0; 0]
  end.

(** The sign of the gradient of the loss of [notch_model c r]: the loss
    for label 0 falls when the score of class 0 grows. *)
Definition notch_grad (c : Qc) (t : Tensor) (label : nat) : Tensor :=
  tmap (fun x =>
          let d := x * mnist_std + mnist_mean in
          if label =? 0 then Qcopp (sign (d - c)) else sign (d - c)) t.

(** The batch of one pixel of value [d] on the original scale, as the
    loader hands it over: normalised. *)
Definition one_pixel (d : Qc) (label : nat) : Sample :=
  {| data := [[[[(d - mnist_mean) / mnist_std]]]]; target := label |}.

(** ** Inputs for concrete runs *)

(** Two pixels, one far above the range and one below it. *)
Definition wide_image : Tensor := [[[[Q2Qc (5 # 2); Q2Qc (-3 # 1)]]]].
Definition wide_grad : Tensor := [[[[Q2Qc (-7 # 1); Q2Qc (2 # 3)]]]].
(** Two pixels in range. *)
Definition unit_image : Tensor := [[[[Q2Qc (1 # 2); Q2Qc (9 # 10)]]]].

(** The network that predicts class 1 between 0.25 and 0.45 and class 0
    elsewhere, a sample it classifies correctly, a second one, and one it
    gets wrong. *)
Definition notch_net : Tensor -> list Qc :=
  notch_model (Q2Qc (35 # 100)) (Q2Qc (1 # 10)).
Definition notch_net_grad : Tensor -> nat -> Tensor :=
  notch_grad (Q2Qc (35 # 100)).
Definition sample_a : Sample := one_pixel (Q2Qc (1 # 2)) 0.
Definition sample_b : Sample := one_pixel (Q2Qc (49 # 100)) 0.
Definition sample_w : Sample := one_pixel (Q2Qc (2 # 5)) 0.

(** The network that predicts class 1 between 0.7 and 1.3 and class 0
    elsewhere, and a sample whose pixel is above the data range. *)
Definition edge_net : Tensor -> list Qc := notch_model 1 (Q2Qc (3 # 10)).
Definition edge_net_grad : Tensor -> nat -> Tensor := notch_grad 1.
Definition sample_far : Sample := one_pixel (Q2Qc (3 # 2)) 0.

(** ** Notions for the further properties *)

(** Three lists related entry by entry. *)
Inductive Forall3 {A B C} (R : A -> B -> C -> Prop)
  : list A -> list B -> list C -> Prop :=
| Forall3_nil : Forall3 R [] [] []
| Forall3_cons x y z xs ys zs :
    R x y z -> Forall3 R xs ys zs -> Forall3 R (x :: xs) (y :: ys) (z :: zs).

Definition tForall3 (R : Qc -> Qc -> Qc -> Prop)
  : Tensor -> Tensor -> Tensor -> Prop :=
  Forall3 (Forall3 (Forall3 (Forall3 R))).

(** A sample after which the loop appends to [adv_examples] while the
    list has fewer than 5 entries: its initial prediction is right and
    either [epsilon == 0] or its final prediction is wrong. *)
Definition eligible (model : Tensor -> list Qc)
    (input_grad : Tensor -> nat -> Tensor) (epsilon : Qc) (s : Sample) : bool :=
  init_correct model s
  && (Qc_eq_bool epsilon 0 || negb (still_correct model input_grad epsilon s)).

(** The entry [(init_pred, final_pred, adv_ex)] the loop makes of a
    sample. *)
Definition stored_from (model : Tensor -> list Qc)
    (input_grad : Tensor -> nat -> Tensor) (epsilon : Qc)
    (s : Sample) (e : AdvExample) : Prop :=
  predict model (data s) = Ok (fst (fst e)) /\
  rbind (attacked input_grad epsilon s) (predict model) = Ok (snd (fst e)) /\
  rmap squeeze (perturbed input_grad epsilon s) = Ok (snd e).

(** A batch whose images have [k] channels each. *)
Definition channels (k : nat) (batch : Tensor) : Prop :=
  Forall (fun img : Image => length img = k) batch.

(** [batch op v] with one value of [l] for each channel. *)
Definition per_channel (op : Qc -> Qc -> Qc) (batch : Tensor) (l : list Qc)
  : Tensor :=
  map (fun img : Image =>
         map2 (fun (ch : Channel) v => map (map (fun x => op x v)) ch) img l)
    batch.

(** One image of three channels of one pixel each, with a mean and a std
    for each channel. *)
Definition rgb_batch : Tensor :=
  [[[[Q2Qc (1 # 2)]]; [[Q2Qc (1 # 3)]]; [[Q2Qc (2 # 1)]]]].
Definition rgb_mean : list Qc := [Q2Qc (1 # 10); Q2Qc (2 # 10); Q2Qc (3 # 10)].
Definition rgb_std : list Qc := [Q2Qc (1 # 2); Q2Qc (1 # 4); Q2Qc (2 # 1)].

(** The [epsilons] of the notebook. *)
Definition epsilons : list Qc :=
  [0; Q2Qc (5 # 100); Q2Qc (1 # 10); Q2Qc (15 # 100); Q2Qc (2 # 10);
   Q2Qc (25 # 100); Q2Qc (3 # 10)].

(** A loader over three samples that hands them over in one order on
    even traversals and in another on odd ones. *)
Definition three_samples : list Sample := [sample_a; sample_w; sample_b].
Definition shuffling_loader (k : nat) : list Sample :=
  if Nat.even k then [sample_a; sample_w; sample_b]
  else [sample_b; sample_a; sample_w].

(** Five samples the small network classifies correctly, and a loader
    that hands them over in this order on every traversal. *)
Definition five_samples : list Sample :=
  [sample_a; sample_b; sample_a; sample_b; sample_a].
Definition steady_loader (k : nat) : list Sample := five_samples.

(** ** The run over the epsilons *)

Section Run.
Variable model : Tensor -> list Qc.
Variable input_grad : Tensor -> nat -> Tensor.
(** The loader is built with [shuffle=True]: each traversal hands the
    batches over in an order of its own; [test_loader k] is the order of
    traversal number [k]. *)
Variable test_loader : nat -> list Sample.

(** [for eps in epsilons: acc, ex = test(...); accuracies.append(acc);
    examples.append(ex)], at traversal [k] of the loader. *)
Fixpoint run_loop (epsilons : list Qc) (k : nat)
    (accuracies : list Qc) (examples : list (list AdvExample))
  : result (list Qc * list (list AdvExample)) :=
  match epsilons with
  | [] => Ok (accuracies, examples)
  | eps :: rest =>
      match fst (test model input_grad (test_loader k) eps) with
      | Ok (acc, ex) =>
          run_loop rest (S k) (accuracies ++ [acc]) (examples ++ [ex])
      | Raise e => Raise e
      end
  end.

(** The cell: both lists start empty, at the first traversal. *)
Definition run_attack (epsilons : list Qc)
  : result (list Qc * list (list AdvExample)) :=
  run_loop epsilons 0 [] [].
End Run.

(** ** The plot of the examples *)

(** What the plotting loop asks of the plotting library for one example:
    [plt.subplot(nrows, ncols, index)], [plt.ylabel] when the example is
    the first of its row, [plt.title] and [plt.imshow]. *)
Record subplot : Type := mk_subplot {
  nrows : nat;
  ncols : nat;
  index : nat;
  ylabel : option Qc;
  title : nat * nat;
  shown : ndarray
}.

(** A [for] over a range whose body may raise; [None] is Python's
    [IndexError], the only exception the loop's own code can raise. *)
Fixpoint for_range {S} (body : nat -> S -> option S) (range : list nat) (st : S)
  : option S :=
  match range with
  | [] => Some st
  | j :: range' =>
      match body j st with
      | Some st' => for_range body range' st'
      | None => None
      end
  end.

(** The body of the inner loop, on the state [(cnt, calls made)]. *)
Definition plot_cell (epsilons : list Qc) (examples : list (list AdvExample))
    (i j : nat) (st : nat * list subplot) : option (nat * list subplot) :=
  let cnt := S (fst st) in
  match nth_error examples 0 with
  | None => None
  | Some first =>
      match (if j =? 0 then option_map Some (nth_error epsilons i)
             else Some None) with
      | None => None
      | Some label =>
          match nth_error examples i with
          | None => None
          | Some row =>
              match nth_error row j with
              | None => None
              | Some (orig, adv, ex) =>
                  Some (cnt,
                        snd st ++ [mk_subplot (length epsilons) (length first)
                                     cnt label (orig, adv) ex])
              end
          end
      end
  end.

(** [for j in range(len(examples[i]))]. *)
Definition plot_row (epsilons : list Qc) (examples : list (list AdvExample))
    (i : nat) (st : nat * list subplot) : option (nat * list subplot) :=
  match nth_error examples i with
  | None => None
  | Some row => for_range (plot_cell epsilons examples i) (seq 0 (length row)) st
  end.

(** The cell: [cnt = 0], then [for i in range(len(epsilons))]. *)
Definition plot_examples (epsilons : list Qc)
    (examples : list (list AdvExample)) : option (list subplot) :=
  option_map snd
    (for_range (plot_row epsilons examples) (seq 0 (length epsilons)) (0%nat, [])).

(** The examples of one epsilon, the first with the label of the row,
    counting the columns from [j0]. *)
Definition row_items (j0 : nat) (eps : Qc) (row : list AdvExample)
  : list (option Qc * AdvExample) :=
  map (fun p => (if fst p =? 0 then Some eps else None, snd p))
    (combine (seq j0 (length row)) row).

(** The calls for a list of examples, numbered from [cnt + 1]. *)
Definition number_from (r c cnt : nat) (items : list (option Qc * AdvExample))
  : list subplot :=
  map (fun p => mk_subplot r c (fst p) (fst (snd p))
                  (fst (snd (snd p))) (snd (snd (snd p))))
    (combine (seq (S cnt) (length items)) items).

(** The calls of the whole plot, row after row. *)
Definition plot_calls (epsilons : list Qc) (examples : list (list AdvExample))
  : list subplot :=
  number_from (length epsilons) (length (hd [] examples)) 0
    (concat (map2 (row_items 0) epsilons examples)).

(** Two epsilons with two examples each, and the same with one example
    missing in the second row. *)
Definition two_epsilons : list Qc := [0; Q2Qc (1 # 10)].
Definition picture (v : Qc) : ndarray := ([], [v]).
Definition full_rows : list (list AdvExample) :=
  [[(3, 3, picture (Q2Qc (1 # 2))); (7, 7, picture (Q2Qc (1 # 4)))];
   [(3, 8, picture (Q2Qc (2 # 5))); (7, 1, picture (Q2Qc (3 # 4)))]]%nat.
Definition short_rows : list (list AdvExample) :=
  [[(3, 3, picture (Q2Qc (1 # 2))); (7, 7, picture (Q2Qc (1 # 4)))];
   [(3, 8, picture (Q2Qc (2 # 5)))]]%nat.

(** ** The plot, with the errors of the plotting library

    The cell once more, with the exceptions of the calls it makes:
    [plt.subplot(nrows, ncols, index)] raises [ValueError] unless
    [1 <= index <= nrows * ncols], and [plt.imshow] raises [TypeError] for
    an array it takes for no picture.  Which arrays [plt.imshow] takes is
    the library's matter and a parameter here. *)

(** Python's [IndexError], [ValueError] and [TypeError]. *)
Inductive plot_exn : Type :=
| PlotIndexError
| PlotValueError
| PlotTypeError.

Fixpoint for_range_checked {S} (body : nat -> S -> S + plot_exn)
    (range : list nat) (st : S) : S + plot_exn :=
  match range with
  | [] => inl st
  | j :: range' =>
      match body j st with
      | inl st' => for_range_checked body range' st'
      | inr e => inr e
      end
  end.

Definition subplot_ok (nrows ncols index : nat) : bool :=
  (1 <=? index) && (index <=? nrows * ncols).

Section PlotChecked.
Variable imshow_ok : ndarray -> bool.

(** The body of the inner loop. *)
Definition plot_cell_checked (epsilons : list Qc)
    (examples : list (list AdvExample)) (i j : nat) (st : nat * list subplot)
  : nat * list subplot + plot_exn :=
  let cnt := S (fst st) in
  match nth_error examples 0 with
  | None => inr PlotIndexError
  | Some first =>
      if negb (subplot_ok (length epsilons) (length first) cnt)
      then inr PlotValueError
      else
        match (if j =? 0 then option_map Some (nth_error epsilons i)
               else Some None) with
        | None => inr PlotIndexError
        | Some label =>
            match nth_error examples i with
            | None => inr PlotIndexError
            | Some row =>
                match nth_error row j with
                | None => inr PlotIndexError
                | Some (orig, adv, ex) =>
                    if imshow_ok ex
                    then inl (cnt,
                              snd st
                              ++ [mk_subplot (length epsilons) (length first)
                                    cnt label (orig, adv) ex])
                    else inr PlotTypeError
                end
            end
        end
  end.

(** [for j in range(len(examples[i]))]. *)
Definition plot_row_checked (epsilons : list Qc)
    (examples : list (list AdvExample)) (i : nat) (st : nat * list subplot)
  : nat * list subplot + plot_exn :=
  match nth_error examples i with
  | None => inr PlotIndexError
  | Some row =>
      for_range_checked (plot_cell_checked epsilons examples i)
        (seq 0 (length row)) st
  end.

(** The cell: [cnt = 0], then [for i in range(len(epsilons))]. *)
Definition plot_examples_checked (epsilons : list Qc)
    (examples : list (list AdvExample)) : list subplot + plot_exn :=
  match for_range_checked (plot_row_checked epsilons examples)
          (seq 0 (length epsilons)) (0%nat, []) with
  | inl st => inl (snd st)
  | inr e => inr e
  end.
End PlotChecked.

(** Pictures of two dimensions, the ones of the notebook, and an
    acceptance of [plt.imshow] that takes them. *)
Definition image (a b c d : Qc) : ndarray := ([2; 2]%nat, [a; b; c; d]).
Definition two_dimensions (ex : ndarray) : bool := length (fst ex) =? 2.

(** Two epsilons with two examples, then one; and with two, then three. *)
Definition image_rows : list (list AdvExample) :=
  [[(3, 3, image 0 1 0 1); (7, 7, image 1 1 0 0)];
   [(3, 8, image 0 0 1 1)]]%nat.
Definition long_rows : list (list AdvExample) :=
  [[(3, 3, image 0 1 0 1); (7, 7, image 1 1 0 0)];
   [(3, 8, image 0 0 1 1); (7, 1, image 1 0 0 1); (2, 5, image 1 0 1 0)]]%nat.

(** ** Pixels that may be NaN

    The entries of the tensors above are numbers.  A float tensor can
    also hold NaN; [torch.clamp] and the addition hand a NaN on.  The
    attack is embedded a second time on images whose pixels may be NaN;
    the gradient entries and [epsilon] stay numbers. *)

Inductive pixel : Type :=
| Num (q : Qc)
| NaN.

Definition PTensor : Type := list (list (list (list pixel))).

Definition map4 {A B} (f : A -> B)
  : list (list (list (list A))) -> list (list (list (list B))) :=
  map (map (map (map f))).

Definition Forall4 {A} (P : A -> Prop) : list (list (list (list A))) -> Prop :=
  Forall (Forall (Forall (Forall P))).

(** [p + v] for a pixel [p] and a number [v]. *)
Definition pixel_plus (p : pixel) (v : Qc) : pixel :=
  match p with
  | Num q => Num (q + v)
  | NaN => NaN
  end.

(** [torch.clamp(p, lo, hi)] on one pixel. *)
Definition pixel_clamp (p : pixel) (lo hi : Qc) : pixel :=
  match p with
  | Num q => Num (clamp q lo hi)
  | NaN => NaN
  end.

(** [fgsm_attack(image, epsilon, data_grad)] on an image whose pixels may
    be NaN. *)
Definition fgsm_attack_nan (image : PTensor) (epsilon : Qc) (data_grad : Tensor)
  : result PTensor :=
  let sign_data_grad := tmap sign data_grad in
  rbind (lift4 (fun x g => Ok (pixel_plus x g)) image
           (tmap (Qcmult epsilon) sign_data_grad))
    (fun perturbed_image =>
       let perturbed_image :=
         map4 (fun x => pixel_clamp x 0 1) perturbed_image in
       Ok perturbed_image).

Definition is_number (p : pixel) : Prop := p <> NaN.

(** A pixel that is a number of [0, 1]. *)
Definition unit_pixel (p : pixel) : Prop :=
  match p with
  | Num q => in_unit q
  | NaN => False
  end.

(** ** 32-bit floats

    The tensors of the notebook hold 32-bit floats: every arithmetic
    operation returns the float nearest to the exact result, ties going to
    the even one.  The floats that are numbers are rationals, and the
    rounding is a function on the rationals: 24 significant bits, the
    smallest spacing [2^-149].  Results beyond the largest float, which
    the framework turns into infinities, are outside this embedding. *)

(** The integer nearest to [q], ties to even. *)
Definition round_half_even (q : Q) : Z :=
  let n := Qnum q in
  let d := Z.pos (Qden q) in
  let f := (n / d)%Z in
  match (2 * (n mod d) ?= d)%Z with
  | Lt => f
  | Gt => (f + 1)%Z
  | Eq => if Z.even f then f else (f + 1)%Z
  end.

Definition pow2 (e : Z) : Q :=
  match e with
  | Z0 => 1%Q
  | Zpos p => inject_Z (2 ^ Zpos p)
  | Zneg p => (1 # (2 ^ p))%Q
  end.

(** [floor (log2 |q|)], for [q] not zero. *)
Definition exponent (q : Q) : Z :=
  let n := Z.abs (Qnum q) in
  let d := Z.pos (Qden q) in
  let e0 := (Z.log2 n - Z.log2 d)%Z in
  if Qle_bool (pow2 e0) (n # Qden q) then e0 else (e0 - 1)%Z.

(** The 32-bit float nearest to [q]. *)
Definition fl32 (q : Q) : Q :=
  if Qeq_bool q 0 then 0%Q
  else
    let u := Z.max (exponent q - 23) (-149) in
    (inject_Z (round_half_even (q / pow2 u)) * pow2 u)%Q.

Definition float32 (x : Qc) : Qc := Q2Qc (fl32 x).

(** A number that is a 32-bit float. *)
Definition is_float32 (x : Qc) : Prop := float32 x = x.

Definition add32 (x y : Qc) : Qc := float32 (x + y).
Definition sub32 (x y : Qc) : Qc := float32 (x - y).
Definition mul32 (x y : Qc) : Qc := float32 (x * y).
Definition div32 (x y : Qc) : Qc := float32 (x / y).

(** [fgsm_attack] on 32-bit floats: the Python scalar [epsilon] becomes a
    32-bit float when it multiplies the tensor. *)
Definition fgsm_attack32 (image : Tensor) (epsilon : Qc) (data_grad : Tensor)
  : result Tensor :=
  let sign_data_grad := tmap sign data_grad in
  rbind (pointwise add32 image (tmap (mul32 (float32 epsilon)) sign_data_grad))
    (fun perturbed_image =>
       let perturbed_image := tmap (fun x => clamp x 0 1) perturbed_image in
       Ok perturbed_image).

(** [denorm] on 32-bit floats: [torch.tensor(mean)] and
    [torch.tensor(std)] round the entries of the lists. *)
Definition denorm32 (batch : Tensor) (mean std : list Qc) : result Tensor :=
  rbind (pointwise mul32 batch (view (map float32 std)))
    (fun scaled => pointwise add32 scaled (view (map float32 mean))).

(** [transforms.Normalize] on 32-bit floats: [mean] and [std] are made
    tensors of the type of [tensor]. *)
Definition Normalize32 (mean std : list Qc) (tensor : Tensor) : result Tensor :=
  if existsb (fun s => Qc_eq_bool s 0) (map float32 std) then Raise ValueError
  else rbind (pointwise_ sub32 tensor (view (map float32 mean)))
         (fun centred => pointwise_ div32 centred (view (map float32 std))).

Section Test32.
Variable model : Tensor -> list Qc.
Variable input_grad : Tensor -> nat -> Tensor.

Open Scope test_scope.

(** The body of the loop of [test], as [test_body], on 32-bit floats. *)
Definition test_body32 (epsilon : Qc) (st : nat * list AdvExample) (s : Sample)
  : M (nat * list AdvExample) :=
  let '(correct, adv_examples) := st in
  output <- forward model (data s) ;;
  init_pred <- lift (argmax output) ;;
  if negb (init_pred =? target s) then ret (correct, adv_examples)
  else
    data_grad <- backward input_grad (data s) (target s) ;;
    data_denorm <- lift (denorm32 (data s) [mnist_mean] [mnist_std]) ;;
    perturbed_data <- lift (fgsm_attack32 data_denorm epsilon data_grad) ;;
    perturbed_data_normalized <-
      lift (Normalize32 [mnist_mean] [mnist_std] perturbed_data) ;;
    output <- forward model perturbed_data_normalized ;;
    final_pred <- lift (argmax output) ;;
    if final_pred =? target s then
      let correct := S correct in
      if Qc_eq_bool epsilon 0 && (length adv_examples <? 5) then
        let adv_ex := squeeze perturbed_data in
        ret (correct, adv_examples ++ [(init_pred, final_pred, adv_ex)])
      else ret (correct, adv_examples)
    else
      if length adv_examples <? 5 then
        let adv_ex := squeeze perturbed_data in
        ret (correct, adv_examples ++ [(init_pred, final_pred, adv_ex)])
      else ret (correct, adv_examples).

Fixpoint test_loop32 (epsilon : Qc) (test_loader : list Sample)
    (st : nat * list AdvExample) (log : list (Sample * list pass))
  : result (nat * list AdvExample) * list (Sample * list pass) :=
  match test_loader with
  | [] => (Ok st, log)
  | s :: rest =>
      match test_body32 epsilon st s with
      | (Ok st', w) => test_loop32 epsilon rest st' (log ++ [(s, w)])
      | (Raise e, w) => (Raise e, log ++ [(s, w)])
      end
  end.

(** [test] on 32-bit floats.  The final division is one of Python's
    64-bit floats and not of the tensors; it is kept exact, as in
    [final_acc]. *)
Definition test32 (test_loader : list Sample) (epsilon : Qc)
  : result (Qc * list AdvExample) * list (Sample * list pass) :=
  let (r, log) := test_loop32 epsilon test_loader (0%nat, []) [] in
  (rbind r (fun '(correct, adv_examples) =>
      rbind (final_acc correct (length test_loader))
        (fun acc => Ok (acc, adv_examples))),
   log).

(** The perturbed image and the image the network sees again, as
    [perturbed] and [attacked], on 32-bit floats. *)
Definition perturbed32 (epsilon : Qc) (s : Sample) : result Tensor :=
  rbind (denorm32 (data s) [mnist_mean] [mnist_std]) (fun data_denorm =>
    fgsm_attack32 data_denorm epsilon (input_grad (data s) (target s))).

Definition attacked32 (epsilon : Qc) (s : Sample) : result Tensor :=
  rbind (perturbed32 epsilon s) (Normalize32 [mnist_mean] [mnist_std]).
End Test32.

(** [transforms.ToTensor()] on one grey level [k] of [0 .. 255]: the
    float [k / 255]. *)
Definition ToTensor (k : Z) : Qc := div32 (Q2Qc (inject_Z k)) (Q2Qc 255).

(** A network of one input [x] and two classes, with scores [x - c] and
    [b]: class 0 is predicted when [x - c >= b].  The loss for label 0
    falls as the input grows. *)
Definition step_model (c b : Qc) (t : Tensor) : list Qc :=
  match flatten t with
  | [x] => [x - c; b]
  | _ => [0; 0]
  end.

Definition step_grad (t : Tensor) (label : nat) : Tensor :=
  tmap (fun _ => if label =? 0 then Qcopp 1 else 1) t.

(** The normalised value of the grey level 87 is the float
    [2865311 / 2^22]; the float below it is [11461243 / 2^24].  The
    network [step_net] predicts class 0 at the first and class 1 at the
    second: its scores are [x - 11461243 / 2^24] and [2^-25]. *)
Definition step_net : Tensor -> list Qc :=
  step_model (Q2Qc (11461243 # 16777216)) (Q2Qc (1 # 33554432)).

Definition sample_grey : Sample :=
  {| data := [[[[Q2Qc (2865311 # 4194304)]]]]; target := 0 |}.

(** The normalised value of the grey level 0, which [step_net] gives
    class 1. *)
Definition sample_black : Sample :=
  {| data := [[[[Q2Qc (-14234225 # 33554432)]]]]; target := 1 |}.

(** Two pixels that are floats of [0, 1]: 0.5 and the grey level 87. *)
Definition float_image : Tensor :=
  [[[[Q2Qc (1 # 2); Q2Qc (11447983 # 33554432)]]]].

(** An image with pixels outside [0, 1], and one with a NaN pixel. *)
Definition wide_pixels : PTensor := map4 Num wide_image.

Definition nan_image : PTensor := [[[[NaN; Num (Q2Qc (1 # 2))]]]].

(** * Properties *)

(** ** Scalar facts *)

Lemma Qc_ltb_spec (x y : Qc) : Qc_ltb x y = true <-> x < y.
Proof.
  unfold Qc_ltb. rewrite Qclt_alt.
  destruct (x ?= y); split; congruence.
Qed.

Lemma Qc_ltb_false (x y : Qc) : Qc_ltb x y = false <-> y <= x.
Proof.
  split; intro H.
  - apply Qcnot_lt_le. intro L. apply Qc_ltb_spec in L. congruence.
  - destruct (Qc_ltb x y) eqn:E; [|reflexivity].
    apply Qc_ltb_spec in E. elim (Qcle_not_lt _ _ H E).
Qed.

Lemma Qc_0_le_1 : 0 <= 1.
Proof. unfold Qcle; simpl. lra. Qed.

Lemma clamp_range (x : Qc) : 0 <= clamp x 0 1 <= 1.
Proof.
  unfold clamp, Qcmin, Qcmax.
  destruct (Qc_ltb x 0) eqn:E0.
  - destruct (Qc_ltb 1 0) eqn:E1.
    + apply Qc_ltb_spec in E1. elim (Qcle_not_lt _ _ Qc_0_le_1 E1).
    + split; [apply Qcle_refl | apply Qc_0_le_1].
  - apply Qc_ltb_false in E0.
    destruct (Qc_ltb 1 x) eqn:E1.
    + split; [apply Qc_0_le_1 | apply Qcle_refl].
    + apply Qc_ltb_false in E1. split; assumption.
Qed.

Lemma clamp_id (x : Qc) : 0 <= x <= 1 -> clamp x 0 1 = x.
Proof.
  intros [H0 H1]. unfold clamp, Qcmin, Qcmax.
  apply Qc_ltb_false in H0. rewrite H0.
  apply Qc_ltb_false in H1. rewrite H1. reflexivity.
Qed.

Lemma clamp_cases (x : Qc) :
  (x < 0 /\ clamp x 0 1 = 0) \/ (0 <= x <= 1 /\ clamp x 0 1 = x)
  \/ (1 < x /\ clamp x 0 1 = 1).
Proof.
  destruct (Qclt_le_dec x 0) as [L|L].
  - left. split; [assumption|].
    unfold clamp, Qcmin, Qcmax.
    apply Qc_ltb_spec in L. rewrite L.
    destruct (Qc_ltb 1 0) eqn:E1; [|reflexivity].
    apply Qc_ltb_spec in E1. elim (Qcle_not_lt _ _ Qc_0_le_1 E1).
  - destruct (Qclt_le_dec 1 x) as [U|U].
    + right; right. split; [assumption|].
      unfold clamp, Qcmin, Qcmax.
      apply Qc_ltb_false in L. rewrite L.
      apply Qc_ltb_spec in U. rewrite U. reflexivity.
    + right; left. split; [split; assumption | apply clamp_id; split; assumption].
Qed.

Lemma sign_cases (g : Qc) : sign g = Qcopp 1 \/ sign g = 0 \/ sign g = 1.
Proof. unfold sign. destruct (g ?= 0); auto. Qed.

(** Inequalities over [Qc] are inequalities over [Q] between the
    underlying fractions. *)
Ltac qc_lra :=
  unfold Qcle, Qclt, Qcminus, Qcplus, Qcmult, Qcopp, Q2Qc in *;
  cbn [this] in *;
  repeat rewrite Qred_correct in *;
  lra.

Lemma fgsm_pixel_close (epsilon x g : Qc) :
  0 <= x <= 1 -> 0 <= epsilon ->
  x - epsilon <= fgsm_pixel epsilon x g <= x + epsilon.
Proof.
  intros [H0 H1] He. unfold fgsm_pixel.
  destruct (clamp_cases (x + epsilon * sign g)) as [[C E]|[[C E]|[C E]]];
    rewrite E; clear E;
    destruct (sign_cases g) as [S|[S|S]]; rewrite S in *; clear S;
    split; qc_lra.
Qed.

Lemma fgsm_pixel_zero (x g : Qc) : 0 <= x <= 1 -> fgsm_pixel 0 x g = x.
Proof.
  intros H. unfold fgsm_pixel.
  rewrite Qcmult_0_l, Qcplus_0_r. apply clamp_id, H.
Qed.

Lemma mnist_std_nonzero : mnist_std <> 0.
Proof. intro H. apply (f_equal this) in H. discriminate H. Qed.

Lemma renorm_denorm_pixel (m s x : Qc) : s <> 0 -> (x * s + m - m) / s = x.
Proof. intros H. field. exact H. Qed.

Lemma denorm_renorm_pixel (m x : Qc) {s : Qc} : s <> 0 -> (x - m) / s * s + m = x.
Proof. intros H. field. exact H. Qed.

(** ** Lists of results *)

Section MapM.
Context {A B : Type}.

Lemma mapM_ext (f g : A -> result B) (l : list A) :
  (forall x, f x = g x) -> mapM f l = mapM g l.
Proof.
  intros E. induction l as [|x l IH]; simpl; [reflexivity|].
  rewrite E, IH. reflexivity.
Qed.

Lemma mapM_Ok (g : A -> B) (l : list A) :
  mapM (fun x => Ok (g x)) l = Ok (map g l).
Proof.
  induction l as [|x l IH]; simpl; [reflexivity|].
  rewrite IH. reflexivity.
Qed.

Lemma mapM_map {A0} (f : A -> result B) (g : A0 -> A) (l : list A0) :
  mapM f (map g l) = mapM (fun x => f (g x)) l.
Proof.
  induction l as [|x l IH]; simpl; [reflexivity|].
  rewrite IH. reflexivity.
Qed.

Lemma rmap_mapM {C} (h : B -> C) (f : A -> result B) (l : list A) :
  rmap (map h) (mapM f l) = mapM (fun x => rmap h (f x)) l.
Proof.
  induction l as [|x l IH]; simpl; [reflexivity|].
  rewrite <- IH. destruct (f x); simpl; [|reflexivity].
  destruct (mapM f l); reflexivity.
Qed.

Lemma mapM_Forall (P : B -> Prop) (f : A -> result B) (l : list A) zs :
  (forall x z, f x = Ok z -> P z) -> mapM f l = Ok zs -> Forall P zs.
Proof.
  intros HP. revert zs.
  induction l as [|x l IH]; simpl; intros zs H.
  - injection H as <-. constructor.
  - destruct (f x) as [z|] eqn:Ex; simpl in H; [|discriminate].
    destruct (mapM f l) as [zs'|]; simpl in H; [|discriminate].
    injection H as <-. constructor; eauto.
Qed.
End MapM.

(** ** One dimension of broadcasting *)

Section Broadcast.
Context {A B C : Type}.

Lemma broadcast_ext (f g : A -> B -> result C) xs ys :
  (forall x y, f x y = g x y) -> broadcast f xs ys = broadcast g xs ys.
Proof.
  intros E. unfold broadcast.
  destruct (length xs =? length ys).
  - apply mapM_ext. intros [x y]. apply E.
  - destruct xs as [|x [|x' xs]].
    + destruct ys as [|y [|y' ys]]; [reflexivity | | reflexivity].
      apply mapM_ext. intros x. apply E.
    + apply mapM_ext. intros y. apply E.
    + destruct ys as [|y [|y' ys]]; [reflexivity | | reflexivity].
      apply mapM_ext. intros x0. apply E.
Qed.

(** Stretching against a one-element operand is a plain map. *)
Lemma broadcast_singleton_r (f : A -> B -> result C) xs y :
  broadcast f xs [y] = mapM (fun x => f x y) xs.
Proof.
  unfold broadcast. destruct xs as [|x [|x' xs]]; reflexivity.
Qed.

Lemma combine_map_r {B0} (g : B0 -> B) (xs : list A) (ys : list B0) :
  combine xs (map g ys) = map (fun p => (fst p, g (snd p))) (combine xs ys).
Proof.
  revert ys. induction xs as [|x xs IH]; intros [|y ys]; simpl;
    try reflexivity.
  rewrite IH. reflexivity.
Qed.

Lemma broadcast_map_r {B0} (f : A -> B -> result C) (f' : A -> B0 -> result C)
    (g : B0 -> B) xs ys :
  (forall x y, f x (g y) = f' x y) ->
  broadcast f xs (map g ys) = broadcast f' xs ys.
Proof.
  intros E. unfold broadcast. rewrite length_map.
  destruct (length xs =? length ys).
  - rewrite combine_map_r, mapM_map. apply mapM_ext. intros [x y]. apply E.
  - destruct xs as [|x [|x' xs]].
    + destruct ys as [|y [|y' ys]]; [reflexivity | | reflexivity].
      simpl map. apply mapM_ext. intro. apply E.
    + rewrite mapM_map. apply mapM_ext. intro. apply E.
    + destruct ys as [|y [|y' ys]]; [reflexivity | | reflexivity].
      simpl map. apply mapM_ext. intro. apply E.
Qed.

(** Whatever the shapes, every entry of a result comes from [f]. *)
Lemma broadcast_Forall (P : C -> Prop) (f : A -> B -> result C) xs ys zs :
  (forall x y z, f x y = Ok z -> P z) ->
  broadcast f xs ys = Ok zs -> Forall P zs.
Proof.
  intros HP. unfold broadcast.
  destruct (length xs =? length ys).
  - apply mapM_Forall. intros [x y] z. apply HP.
  - destruct xs as [|x [|x' xs]].
    + destruct ys as [|y [|y' ys]]; [discriminate | | discriminate].
      apply mapM_Forall. intros x z. apply HP.
    + apply mapM_Forall. intros y z. apply HP.
    + destruct ys as [|y [|y' ys]]; [discriminate | | discriminate].
      apply mapM_Forall. intros x0 z. apply HP.
Qed.

(** On operands of one size the result has that size and relates to the
    left operand entry by entry. *)
Lemma broadcast_Forall2 (S : A -> B -> Prop) (R : A -> C -> Prop)
    (f : A -> B -> result C) xs ys :
  Forall2 S xs ys ->
  (forall x y, S x y -> exists z, f x y = Ok z /\ R x z) ->
  exists zs, broadcast f xs ys = Ok zs /\ Forall2 R xs zs.
Proof.
  intros HS Hf. unfold broadcast.
  rewrite (Forall2_length HS), Nat.eqb_refl.
  induction HS as [|x y xs ys Hxy _ IH]; simpl.
  - exists []. split; [reflexivity | constructor].
  - destruct (Hf x y Hxy) as (z & -> & Rz).
    destruct IH as (zs & -> & Rzs). simpl.
    exists (z :: zs). split; [reflexivity | constructor; assumption].
Qed.
End Broadcast.

Lemma rmap_broadcast {A B C D} (h : C -> D) (f : A -> B -> result C)
    (f' : A -> B -> result D) xs ys :
  (forall x y, rmap h (f x y) = f' x y) ->
  rmap (map h) (broadcast f xs ys) = broadcast f' xs ys.
Proof.
  intros E. rewrite <- (broadcast_ext _ _ xs ys E).
  unfold broadcast.
  destruct (length xs =? length ys).
  - apply rmap_mapM.
  - destruct xs as [|x [|x' xs]].
    + destruct ys as [|y [|y' ys]]; [reflexivity | | reflexivity].
      apply rmap_mapM.
    + apply rmap_mapM.
    + destruct ys as [|y [|y' ys]]; [reflexivity | | reflexivity].
      apply rmap_mapM.
Qed.

Lemma broadcast_const_r {A B C} (f : A -> B -> result C) (g : A -> C) xs y :
  (forall x, f x y = Ok (g x)) -> broadcast f xs [y] = Ok (map g xs).
Proof.
  intros E. rewrite broadcast_singleton_r, <- mapM_Ok.
  apply mapM_ext, E.
Qed.

Lemma broadcast__const_r {A B} (f : A -> B -> result A) (g : A -> A) xs y :
  (forall x, f x y = Ok (g x)) -> broadcast_ f xs [y] = Ok (map g xs).
Proof.
  intros E. rewrite <- mapM_Ok, <- (mapM_ext _ _ xs E).
  unfold broadcast_. destruct xs as [|x [|x' xs]]; reflexivity.
Qed.

(** ** Lists related entry by entry *)

Lemma Forall2_and_l {A B} (P : A -> Prop) (Q R : A -> B -> Prop) xs ys :
  (forall x y, P x -> Q x y -> R x y) ->
  Forall P xs -> Forall2 Q xs ys -> Forall2 R xs ys.
Proof.
  intros H HP HQ. induction HQ as [|x y xs ys Hxy _ IH]; constructor.
  - apply H; [exact (Forall_inv HP) | exact Hxy].
  - apply IH. exact (Forall_inv_tail HP).
Qed.

Lemma Forall2_is_eq {A} (R : A -> A -> Prop) xs ys :
  (forall x y, R x y -> y = x) -> Forall2 R xs ys -> ys = xs.
Proof.
  intros H HR. induction HR as [|x y xs ys Hxy _ IH]; [reflexivity|].
  rewrite (H _ _ Hxy), IH. reflexivity.
Qed.

Lemma Forall2_map_l {A A' B} (g : A -> A') (R : A' -> B -> Prop) xs ys :
  Forall2 (fun x y => R (g x) y) xs ys -> Forall2 R (map g xs) ys.
Proof.
  intros H. induction H; simpl; constructor; assumption.
Qed.

Lemma Forall2_map_r {A B B'} (g : B -> B') (R : A -> B' -> Prop) xs ys :
  Forall2 (fun x y => R x (g y)) xs ys -> Forall2 R xs (map g ys).
Proof.
  intros H. induction H; simpl; constructor; assumption.
Qed.

Lemma Forall2_diag {A} (R : A -> A -> Prop) xs :
  (forall x, R x x) -> Forall2 R xs xs.
Proof. intros H. induction xs; constructor; auto. Qed.

(** ** Tensors *)

Lemma tmap_tmap (f g : Qc -> Qc) t :
  tmap f (tmap g t) = tmap (fun x => f (g x)) t.
Proof.
  unfold tmap. rewrite map_map.
  apply map_ext; intros i. rewrite map_map.
  apply map_ext; intros c. rewrite map_map.
  apply map_ext; intros r. apply map_map.
Qed.

Lemma tmap_id (f : Qc -> Qc) t : (forall x, f x = x) -> tmap f t = t.
Proof.
  intros E. unfold tmap.
  rewrite <- (map_id t) at 2. apply map_ext; intros i.
  rewrite <- (map_id i) at 2. apply map_ext; intros c.
  rewrite <- (map_id c) at 2. apply map_ext; intros r.
  rewrite <- (map_id r) at 2. apply map_ext, E.
Qed.

Lemma tForall2_impl (R R' : Qc -> Qc -> Prop) t u :
  (forall x y, R x y -> R' x y) -> tForall2 R t u -> tForall2 R' t u.
Proof.
  intros H. unfold tForall2.
  apply Forall2_impl; intros i i'. apply Forall2_impl; intros c c'.
  apply Forall2_impl; intros r r'. apply Forall2_impl. exact H.
Qed.

Lemma tForall2_and_l (P : Qc -> Prop) (Q R : Qc -> Qc -> Prop) t u :
  (forall x y, P x -> Q x y -> R x y) ->
  tForall P t -> tForall2 Q t u -> tForall2 R t u.
Proof.
  intros H. unfold tForall, tForall2.
  apply Forall2_and_l; intros i i'. apply Forall2_and_l; intros c c'.
  apply Forall2_and_l; intros r r'. apply Forall2_and_l. exact H.
Qed.

Lemma tForall2_tmap_l (g : Qc -> Qc) (R : Qc -> Qc -> Prop) t u :
  tForall2 (fun x y => R (g x) y) t u -> tForall2 R (tmap g t) u.
Proof.
  unfold tForall2, tmap. intros H.
  apply Forall2_map_l. revert H. apply Forall2_impl; intros i i' H.
  apply Forall2_map_l. revert H. apply Forall2_impl; intros c c' H.
  apply Forall2_map_l. revert H. apply Forall2_impl; intros r r' H.
  apply Forall2_map_l. exact H.
Qed.

Lemma tForall2_is_eq (R : Qc -> Qc -> Prop) t u :
  (forall x y, R x y -> y = x) -> tForall2 R t u -> u = t.
Proof.
  intros H. unfold tForall2.
  apply Forall2_is_eq; intros i i'. apply Forall2_is_eq; intros c c'.
  apply Forall2_is_eq; intros r r'. apply Forall2_is_eq. exact H.
Qed.

Lemma same_shape_tmap_l (g : Qc -> Qc) t u :
  same_shape t u -> same_shape (tmap g t) u.
Proof. intros H. apply tForall2_tmap_l. exact H. Qed.

(** A one-entry right operand: the operation is applied to every entry. *)
Lemma pointwise_scalar_r (op : Qc -> Qc -> Qc) t c :
  pointwise op t [[[[c]]]] = Ok (tmap (fun x => op x c) t).
Proof.
  unfold pointwise, lift4, tmap.
  apply broadcast_const_r; intros i. apply broadcast_const_r; intros ch.
  apply broadcast_const_r; intros r. apply broadcast_const_r; intros x.
  reflexivity.
Qed.

Lemma pointwise__scalar_r (op : Qc -> Qc -> Qc) t c :
  pointwise_ op t [[[[c]]]] = Ok (tmap (fun x => op x c) t).
Proof.
  unfold pointwise_, lift4_, tmap.
  apply broadcast__const_r; intros i. apply broadcast__const_r; intros ch.
  apply broadcast__const_r; intros r. apply broadcast__const_r; intros x.
  reflexivity.
Qed.

Lemma denorm_scalar batch m s :
  denorm batch [m] [s] = Ok (tmap (fun x => x * s + m) batch).
Proof.
  unfold denorm, view. simpl map.
  rewrite pointwise_scalar_r. simpl rbind.
  rewrite pointwise_scalar_r, tmap_tmap. reflexivity.
Qed.

Lemma Qc_eq_bool_false {x y : Qc} : x <> y -> Qc_eq_bool x y = false.
Proof.
  intros H. destruct (Qc_eq_bool x y) eqn:E; [|reflexivity].
  elim H. apply Qc_eq_bool_correct, E.
Qed.

Lemma Normalize_scalar t m {s} :
  s <> 0 -> Normalize [m] [s] t = Ok (tmap (fun x => (x - m) / s) t).
Proof.
  intros H. unfold Normalize, view. simpl existsb.
  rewrite (Qc_eq_bool_false H). simpl orb. cbv iota. simpl map.
  rewrite pointwise__scalar_r. simpl rbind.
  rewrite pointwise__scalar_r, tmap_tmap. reflexivity.
Qed.

Lemma Normalize_denorm batch m s :
  s <> 0 ->
  rbind (denorm batch [m] [s]) (Normalize [m] [s]) = Ok batch.
Proof.
  intros H. rewrite denorm_scalar. simpl rbind.
  rewrite (Normalize_scalar _ _ H). rewrite tmap_tmap.
  f_equal. apply tmap_id. intros x. apply renorm_denorm_pixel, H.
Qed.

(** ** The attack, entry by entry *)

Lemma lift4_tmap_r {C} (f f' : Qc -> Qc -> result C) (g : Qc -> Qc) t u :
  (forall x y, f x (g y) = f' x y) -> lift4 f t (tmap g u) = lift4 f' t u.
Proof.
  intros E. unfold lift4, tmap.
  apply broadcast_map_r; intros i i'. apply broadcast_map_r; intros c c'.
  apply broadcast_map_r; intros r r'. apply broadcast_map_r. exact E.
Qed.

Lemma rmap_lift4 (h : Qc -> Qc) (f f' : Qc -> Qc -> result Qc) t u :
  (forall x y, rmap h (f x y) = f' x y) ->
  rmap (tmap h) (lift4 f t u) = lift4 f' t u.
Proof.
  intros E. unfold lift4, tmap.
  apply rmap_broadcast; intros i i'. apply rmap_broadcast; intros c c'.
  apply rmap_broadcast; intros r r'. apply rmap_broadcast. exact E.
Qed.

Lemma lift4_tForall {C} (P : C -> Prop) (f : Qc -> Qc -> result C) t u out :
  (forall x y z, f x y = Ok z -> P z) ->
  lift4 f t u = Ok out -> Forall (Forall (Forall (Forall P))) out.
Proof.
  intros H. unfold lift4.
  apply broadcast_Forall; intros i i' o. apply broadcast_Forall; intros c c' oc.
  apply broadcast_Forall; intros r r' orr. apply broadcast_Forall. exact H.
Qed.

Lemma lift4_tForall2 (S R : Qc -> Qc -> Prop) (f : Qc -> Qc -> result Qc) t u :
  tForall2 S t u ->
  (forall x y, S x y -> exists z, f x y = Ok z /\ R x z) ->
  exists out, lift4 f t u = Ok out /\ tForall2 R t out.
Proof.
  intros HS H. unfold lift4, tForall2 in *.
  eapply broadcast_Forall2; [exact HS|]. intros i i' Hi.
  eapply broadcast_Forall2; [exact Hi|]. intros c c' Hc.
  eapply broadcast_Forall2; [exact Hc|]. intros r r' Hr.
  eapply broadcast_Forall2; [exact Hr|]. exact H.
Qed.

Lemma fgsm_attack_pointwise image epsilon data_grad :
  fgsm_attack image epsilon data_grad
  = pointwise (fgsm_pixel epsilon) image data_grad.
Proof.
  unfold fgsm_attack, pointwise. rewrite tmap_tmap.
  change (rmap (tmap (fun x => clamp x 0 1))
            (lift4 (fun x y => Ok (x + y)) image
               (tmap (fun g => epsilon * sign g) data_grad))
          = lift4 (fun x y => Ok (fgsm_pixel epsilon x y)) image data_grad).
  rewrite (lift4_tmap_r (fun x y => Ok (x + y))
             (fun x g => Ok (x + epsilon * sign g)))
    by reflexivity.
  apply rmap_lift4. reflexivity.
Qed.

Lemma fgsm_attack_near image epsilon data_grad :
  tForall in_unit image -> 0 <= epsilon -> same_shape image data_grad ->
  exists out,
    fgsm_attack image epsilon data_grad = Ok out /\
    tForall2 (fun x y => Qcabs.Qcabs (y - x) <= epsilon /\ (epsilon = 0 -> y = x))
      image out.
Proof.
  intros Hu He Hs. rewrite fgsm_attack_pointwise. unfold pointwise.
  apply lift4_tForall2 with (S := fun x _ => in_unit x).
  - revert Hu Hs. apply tForall2_and_l. auto.
  - intros x g Hx. eexists. split; [reflexivity|]. split.
    + rewrite Qcabs.Qcabs_Qcminus. apply Qcabs.Qcabs_diff_Qcle_condition.
      apply fgsm_pixel_close; assumption.
    + intros ->. apply fgsm_pixel_zero, Hx.
Qed.

(** At [epsilon = 0] an image in range comes back as it is. *)
Lemma fgsm_attack_zero image data_grad :
  tForall in_unit image -> same_shape image data_grad ->
  fgsm_attack image 0 data_grad = Ok image.
Proof.
  intros Hu Hs.
  destruct (fgsm_attack_near image 0 data_grad Hu (Qcle_refl 0) Hs)
    as (out & -> & H).
  f_equal. revert H. apply tForall2_is_eq. intros x y [_ E]. auto.
Qed.

Lemma fgsm_attack_defined image epsilon data_grad :
  same_shape image data_grad ->
  exists out, fgsm_attack image epsilon data_grad = Ok out.
Proof.
  intros Hs. rewrite fgsm_attack_pointwise. unfold pointwise.
  destruct (lift4_tForall2 (fun _ _ => True) (fun _ _ => True)
              (fun x y => Ok (fgsm_pixel epsilon x y)) image data_grad Hs)
    as (out & E & _).
  - intros x y _. eexists. split; [reflexivity | exact I].
  - exists out. exact E.
Qed.

Lemma broadcast_map2 {A B C} (S : A -> B -> Prop) (f : A -> B -> result C)
    (g : A -> B -> C) xs ys :
  Forall2 S xs ys -> (forall x y, S x y -> f x y = Ok (g x y)) ->
  broadcast f xs ys = Ok (map2 g xs ys).
Proof.
  intros HS H. unfold broadcast, map2.
  rewrite (Forall2_length HS), Nat.eqb_refl.
  induction HS as [|x y xs ys Hxy _ IH]; simpl; [reflexivity|].
  rewrite (H _ _ Hxy). simpl. rewrite IH. reflexivity.
Qed.

Lemma fgsm_attack_tmap2 image epsilon data_grad :
  same_shape image data_grad ->
  fgsm_attack image epsilon data_grad
  = Ok (tmap2 (fgsm_pixel epsilon) image data_grad).
Proof.
  intros Hs. rewrite fgsm_attack_pointwise.
  unfold pointwise, lift4, tmap2, same_shape, tForall2 in *.
  eapply broadcast_map2; [exact Hs|]. intros i i' Hi.
  eapply broadcast_map2; [exact Hi|]. intros c c' Hc.
  eapply broadcast_map2; [exact Hc|]. intros r r' Hr.
  eapply broadcast_map2; [exact Hr|]. reflexivity.
Qed.

Lemma same_shape_tmap (g : Qc -> Qc) t : same_shape t (tmap g t).
Proof.
  unfold same_shape, tForall2, tmap.
  apply Forall2_map_r, Forall2_diag; intros i.
  apply Forall2_map_r, Forall2_diag; intros c.
  apply Forall2_map_r, Forall2_diag; intros r.
  apply Forall2_map_r, Forall2_diag; intros x. exact I.
Qed.

(** ** Accuracies *)

Lemma Zpos_of_nat (n : nat) : n <> 0%nat -> Z.pos (Pos.of_nat n) = Z.of_nat n.
Proof.
  intros H. rewrite <- positive_nat_Z, Nat2Pos.id by exact H. reflexivity.
Qed.

Lemma fraction_le (c1 c2 n : nat) :
  n <> 0%nat -> (c1 <= c2)%nat ->
  Q2Qc (Z.of_nat c1 # Pos.of_nat n) <= Q2Qc (Z.of_nat c2 # Pos.of_nat n).
Proof.
  intros Hn Hc. unfold Qcle, Q2Qc. cbn [this]. rewrite !Qred_correct.
  unfold Qle. cbn [Qnum Qden].
  apply Z.mul_le_mono_nonneg_r; lia.
Qed.

Lemma fraction_unit (c n : nat) :
  n <> 0%nat -> (c <= n)%nat -> in_unit (Q2Qc (Z.of_nat c # Pos.of_nat n)).
Proof.
  intros Hn Hc. unfold in_unit, Qcle, Q2Qc. cbn [this]. rewrite !Qred_correct.
  unfold Qle. cbn [Qnum Qden]. rewrite (Zpos_of_nat n Hn). lia.
Qed.

Lemma final_acc_nonempty (c n : nat) :
  n <> 0%nat -> final_acc c n = Ok (Q2Qc (Z.of_nat c # Pos.of_nat n)).
Proof.
  intros H. unfold final_acc.
  destruct (Nat.eqb_spec n 0); [contradiction | reflexivity].
Qed.

Lemma filter_length_mono {A} (f g : A -> bool) (l : list A) :
  (forall x, In x l -> f x = true -> g x = true) ->
  (length (filter f l) <= length (filter g l))%nat.
Proof.
  induction l as [|x l IH]; intros H; simpl; [lia|].
  assert (IH' := IH (fun y Hy => H y (or_intror Hy))).
  assert (Hx := H x (or_introl eq_refl)).
  destruct (f x); [rewrite (Hx eq_refl)|destruct (g x)]; simpl; lia.
Qed.

Lemma filter_length_ext_in {A} (f g : A -> bool) (l : list A) :
  (forall x, In x l -> f x = g x) ->
  length (filter f l) = length (filter g l).
Proof.
  intros H. apply Nat.le_antisymm; apply filter_length_mono;
    intros x Hx E; [rewrite <- (H x Hx) | rewrite (H x Hx)]; exact E.
Qed.

Lemma filter_length_Permutation {A} (f : A -> bool) (l l' : list A) :
  Permutation l l' -> length (filter f l) = length (filter f l').
Proof.
  induction 1 as [|x l l' _ IH|x y l|l l' l'' _ IH1 _ IH2]; simpl.
  - reflexivity.
  - destruct (f x); simpl; rewrite IH; reflexivity.
  - destruct (f x), (f y); reflexivity.
  - rewrite IH1. exact IH2.
Qed.

(** ** The loop body *)

Ltac count_passes := unfold count_pass; simpl; lia.

Section TestFacts.
Variable model : Tensor -> list Qc.
Variable input_grad : Tensor -> nat -> Tensor.

Local Abbreviation predict := (predict model).
Local Abbreviation perturbed := (perturbed input_grad).
Local Abbreviation attacked := (attacked input_grad).
Local Abbreviation init_correct := (init_correct model).
Local Abbreviation still_correct := (still_correct model input_grad).
Local Abbreviation count_correct := (count_correct model input_grad).
Local Abbreviation test_body := (test_body model input_grad).
Local Abbreviation test_loop := (test_loop model input_grad).
Local Abbreviation test := (test model input_grad).

(** The body, one exit at a time. *)
Lemma test_body_eq epsilon correct adv_examples s :
  test_body epsilon (correct, adv_examples) s =
  match predict (data s) with
  | Raise e => (Raise e, [ForwardPass])
  | Ok init_pred =>
      if negb (init_pred =? target s)
      then (Ok (correct, adv_examples), [ForwardPass])
      else
        match perturbed epsilon s with
        | Raise e => (Raise e, [ForwardPass; BackwardPass])
        | Ok pd =>
            match Normalize [mnist_mean] [mnist_std] pd with
            | Raise e => (Raise e, [ForwardPass; BackwardPass])
            | Ok pn =>
                match predict pn with
                | Raise e =>
                    (Raise e, [ForwardPass; BackwardPass; ForwardPass])
                | Ok final_pred =>
                    (Ok (if final_pred =? target s
                         then (S correct,
                               if Qc_eq_bool epsilon 0
                                  && (length adv_examples <? 5)
                               then adv_examples
                                    ++ [(init_pred, final_pred, squeeze pd)]
                               else adv_examples)
                         else (correct,
                               if length adv_examples <? 5
                               then adv_examples
                                    ++ [(init_pred, final_pred, squeeze pd)]
                               else adv_examples)),
                     [ForwardPass; BackwardPass; ForwardPass])
                end
            end
        end
  end.
Proof.
  unfold test_body, predict, perturbed, forward, backward, bind, lift, ret.
  destruct (argmax (model (data s))) as [ip|e]; [|reflexivity].
  destruct (negb (ip =? target s)); [reflexivity|].
  destruct (denorm (data s) [mnist_mean] [mnist_std]) as [dd|e];
    [|reflexivity].
  simpl rbind.
  destruct (fgsm_attack dd epsilon (input_grad (data s) (target s)))
    as [pd|e]; [|reflexivity].
  destruct (Normalize [mnist_mean] [mnist_std] pd) as [pn|e]; [|reflexivity].
  destruct (argmax (model pn)) as [fp|e]; [|reflexivity].
  destruct (fp =? target s).
  - destruct (Qc_eq_bool epsilon 0 && (length adv_examples <? 5));
      reflexivity.
  - destruct (length adv_examples <? 5); reflexivity.
Qed.

Lemma test_loop_cons epsilon s l st log :
  test_loop epsilon (s :: l) st log =
  match test_body epsilon st s with
  | (Ok st', w) => test_loop epsilon l st' (log ++ [(s, w)])
  | (Raise e, w) => (Raise e, log ++ [(s, w)])
  end.
Proof. reflexivity. Qed.

(** A property of the loop state that the body keeps is kept by the loop. *)
Lemma test_loop_invariant (I : nat * list AdvExample -> Prop) epsilon l :
  (forall st s st' w,
      In s l -> I st -> test_body epsilon st s = (Ok st', w) -> I st') ->
  forall st log st' log',
    I st -> test_loop epsilon l st log = (Ok st', log') -> I st'.
Proof.
  induction l as [|s l IH]; intros Hbody st log st' log' Hst; simpl.
  - intros [= <- _]. exact Hst.
  - destruct (test_body epsilon st s) as [[st1|e] w] eqn:E; [|discriminate].
    apply IH.
    + intros st0 s0 st0' w0 Hin. apply Hbody. right. exact Hin.
    + eapply Hbody; [left; reflexivity | exact Hst | exact E].
Qed.

(** The body runs the network forward at most twice and backward at most
    once, on every exit. *)
Lemma test_body_passes epsilon st s r w :
  test_body epsilon st s = (r, w) ->
  (count_pass ForwardPass w <= 2 /\ count_pass BackwardPass w <= 1)%nat.
Proof.
  destruct st as [c adv]. rewrite test_body_eq.
  destruct (predict (data s)) as [ip|e]; [|intros [= _ <-]; count_passes].
  destruct (negb (ip =? target s)); [intros [= _ <-]; count_passes|].
  destruct (perturbed epsilon s) as [pd|e]; [|intros [= _ <-]; count_passes].
  destruct (Normalize [mnist_mean] [mnist_std] pd) as [pn|e];
    [|intros [= _ <-]; count_passes].
  destruct (predict pn) as [fp|e]; intros [= _ <-]; count_passes.
Qed.

(** The loop adds to the log the samples it takes, in the order of the
    loader, and all of them unless an exception stops it. *)
Lemma test_loop_log epsilon l st log r log' :
  test_loop epsilon l st log = (r, log') ->
  exists new,
    log' = log ++ new /\
    (exists rest, l = map fst new ++ rest) /\
    ((exists st', r = Ok st') -> map fst new = l) /\
    Forall (fun e => (count_pass ForwardPass (snd e) <= 2 /\
                      count_pass BackwardPass (snd e) <= 1)%nat) new.
Proof.
  revert st log log'. induction l as [|s l IH]; intros st log log'.
  - intros [= _ <-]. exists []. rewrite app_nil_r.
    split; [reflexivity|]. split; [exists []; reflexivity|].
    split; [reflexivity | constructor].
  - rewrite test_loop_cons.
    destruct (test_body epsilon st s) as [[st1|e] w] eqn:E.
    + intros H.
      destruct (IH _ _ _ H) as (new & -> & (rest & Hrest) & Hall & Hnew).
      exists ((s, w) :: new). rewrite <- app_assoc.
      split; [reflexivity|]. split; [|split].
      * exists rest. simpl. f_equal. exact Hrest.
      * intros Hok. simpl. f_equal. apply Hall, Hok.
      * constructor; [|exact Hnew]. exact (test_body_passes _ _ _ _ _ E).
    + intros [= <- <-]. exists [(s, w)].
      split; [reflexivity|]. split; [exists l; reflexivity|].
      split; [intros [st' Hst']; discriminate Hst'|].
      constructor; [|constructor]. exact (test_body_passes _ _ _ _ _ E).
Qed.

(** Whatever the network and the gradient are, [test] ends, having taken
    samples from the front of the loader, one after the other. *)
Lemma test_log epsilon l :
  exists r log,
    test l epsilon = (r, log) /\
    (exists rest, l = map fst log ++ rest) /\
    ((exists res, r = Ok res) -> map fst log = l) /\
    Forall (fun e => (count_pass ForwardPass (snd e) <= 2 /\
                      count_pass BackwardPass (snd e) <= 1)%nat) log.
Proof.
  unfold test.
  destruct (test_loop epsilon l (0%nat, []) []) as [r log] eqn:E.
  destruct (test_loop_log _ _ _ _ _ _ E) as (new & -> & Hrest & Hall & Hnew).
  eexists. eexists. split; [reflexivity|]. simpl app.
  split; [exact Hrest|]. split; [|exact Hnew].
  intros [res Hres]. apply Hall.
  destruct r as [st'|e]; [exists st'; reflexivity | discriminate Hres].
Qed.

(** At [epsilon = 0] a sample in range goes through the attack and the
    second normalisation unchanged. *)
Lemma attacked_zero {s} :
  same_shape (data s) (input_grad (data s) (target s)) -> in_range s ->
  exists d, perturbed 0 s = Ok d /\
            Normalize [mnist_mean] [mnist_std] d = Ok (data s).
Proof.
  intros Hs (d & Ed & Hd). exists d. unfold perturbed. rewrite Ed. simpl rbind.
  split.
  - apply fgsm_attack_zero; [exact Hd|].
    rewrite denorm_scalar in Ed. injection Ed as <-.
    apply same_shape_tmap_l, Hs.
  - generalize (Normalize_denorm (data s) mnist_mean mnist_std mnist_std_nonzero).
    rewrite Ed. trivial.
Qed.

Section WellFormed.
(** The network gives a score to at least one class. *)
Hypothesis model_classes : forall x, model x <> [].
(** The gradient has the shape of the tensor it is the gradient of. *)
Hypothesis grad_shape : forall x t, same_shape x (input_grad x t).

Lemma predict_defined x : exists p, predict x = Ok p.
Proof.
  unfold predict, argmax. specialize (model_classes x).
  destruct (model x) as [|y l]; [congruence|]. eexists. reflexivity.
Qed.

Lemma perturbed_defined epsilon s : exists pd, perturbed epsilon s = Ok pd.
Proof.
  unfold perturbed. rewrite denorm_scalar. simpl rbind.
  apply fgsm_attack_defined, same_shape_tmap_l, grad_shape.
Qed.

Lemma test_body_wf epsilon correct adv_examples s :
  exists adv',
    test_body epsilon (correct, adv_examples) s
    = (Ok ((correct + if still_correct epsilon s then 1 else 0)%nat, adv'),
       passes_of (init_correct s)).
Proof.
  rewrite test_body_eq.
  unfold still_correct, init_correct, attacked, is_label.
  destruct (predict_defined (data s)) as [ip ->].
  destruct (ip =? target s); simpl negb; cbv iota.
  - destruct (perturbed_defined epsilon s) as [pd ->]. simpl rbind.
    rewrite (Normalize_scalar pd mnist_mean mnist_std_nonzero). simpl rbind.
    destruct (predict_defined (tmap (fun x => (x - mnist_mean) / mnist_std) pd))
      as [fp ->].
    simpl andb. destruct (fp =? target s); cbv iota.
    + rewrite Nat.add_1_r. eexists. reflexivity.
    + rewrite Nat.add_0_r. eexists. reflexivity.
  - simpl andb. cbv iota. rewrite Nat.add_0_r. eexists. reflexivity.
Qed.

Lemma test_loop_wf epsilon l :
  forall correct adv_examples log,
  exists adv',
    test_loop epsilon l (correct, adv_examples) log
    = (Ok ((correct + count_correct epsilon l)%nat, adv'),
       log ++ map (fun s => (s, passes_of (init_correct s))) l).
Proof.
  induction l as [|s l IH]; intros c adv log.
  - exists adv. unfold count_correct. simpl.
    rewrite Nat.add_0_r, app_nil_r. reflexivity.
  - rewrite test_loop_cons.
    destruct (test_body_wf epsilon c adv s) as [adv1 ->].
    destruct (IH (c + if still_correct epsilon s then 1 else 0)%nat adv1
                (log ++ [(s, passes_of (init_correct s))])) as [adv2 ->].
    exists adv2. rewrite <- app_assoc. simpl. f_equal. f_equal. f_equal.
    unfold count_correct. simpl.
    destruct (still_correct epsilon s); simpl; lia.
Qed.

Lemma test_wf epsilon l :
  exists adv,
    test l epsilon
    = (rbind (final_acc (count_correct epsilon l) (length l))
         (fun acc => Ok (acc, adv)),
       map (fun s => (s, passes_of (init_correct s))) l).
Proof.
  unfold test.
  destruct (test_loop_wf epsilon l 0 [] []) as [adv ->].
  exists adv. reflexivity.
Qed.

Lemma still_correct_zero s :
  in_range s -> still_correct 0 s = init_correct s.
Proof.
  intros Hr. unfold still_correct, attacked.
  destruct (attacked_zero (grad_shape (data s) (target s)) Hr) as (d & -> & E).
  simpl rbind. rewrite E. simpl rbind.
  fold (init_correct s). apply andb_diag.
Qed.

Lemma count_correct_le_clean epsilon l :
  (count_correct epsilon l <= clean_correct model l)%nat.
Proof.
  apply filter_length_mono. intros s _. unfold still_correct.
  intros H. apply andb_prop in H. apply H.
Qed.

Lemma count_correct_zero l :
  Forall in_range l -> count_correct 0 l = clean_correct model l.
Proof.
  intros H. apply filter_length_ext_in. intros s Hs.
  apply still_correct_zero. rewrite Forall_forall in H. apply H, Hs.
Qed.
End WellFormed.
End TestFacts.

(** ** The small network is well formed *)

Lemma notch_model_classes c r x : notch_model c r x <> [].
Proof.
  unfold notch_model. destruct (flatten x) as [|y [|z l]]; discriminate.
Qed.

Lemma notch_grad_shape c x t : same_shape x (notch_grad c x t).
Proof. apply same_shape_tmap. Qed.

Ltac in_unit_compute :=
  repeat constructor; vm_compute; discriminate.

Lemma one_pixel_in_range d label : in_unit d -> in_range (one_pixel d label).
Proof.
  intros H. eexists. split; [apply denorm_scalar|].
  repeat constructor; simpl;
    rewrite (denorm_renorm_pixel mnist_mean d mnist_std_nonzero); apply H.
Qed.

(** ** The loop on 32-bit floats *)

Section Test32Facts.
Variable model : Tensor -> list Qc.
Variable input_grad : Tensor -> nat -> Tensor.

Local Abbreviation predict := (predict model).
Local Abbreviation perturbed32 := (perturbed32 input_grad).
Local Abbreviation test_body32 := (test_body32 model input_grad).
Local Abbreviation test_loop32 := (test_loop32 model input_grad).

(** The body, one exit at a time. *)
Lemma test_body32_eq epsilon correct adv_examples s :
  test_body32 epsilon (correct, adv_examples) s =
  match predict (data s) with
  | Raise e => (Raise e, [ForwardPass])
  | Ok init_pred =>
      if negb (init_pred =? target s)
      then (Ok (correct, adv_examples), [ForwardPass])
      else
        match perturbed32 epsilon s with
        | Raise e => (Raise e, [ForwardPass; BackwardPass])
        | Ok pd =>
            match Normalize32 [mnist_mean] [mnist_std] pd with
            | Raise e => (Raise e, [ForwardPass; BackwardPass])
            | Ok pn =>
                match predict pn with
                | Raise e =>
                    (Raise e, [ForwardPass; BackwardPass; ForwardPass])
                | Ok final_pred =>
                    (Ok (if final_pred =? target s
                         then (S correct,
                               if Qc_eq_bool epsilon 0
                                  && (length adv_examples <? 5)
                               then adv_examples
                                    ++ [(init_pred, final_pred, squeeze pd)]
                               else adv_examples)
                         else (correct,
                               if length adv_examples <? 5
                               then adv_examples
                                    ++ [(init_pred, final_pred, squeeze pd)]
                               else adv_examples)),
                     [ForwardPass; BackwardPass; ForwardPass])
                end
            end
        end
  end.
Proof.
  unfold test_body32, predict, perturbed32, forward, backward, bind, lift, ret.
  destruct (argmax (model (data s))) as [ip|e]; [|reflexivity].
  destruct (negb (ip =? target s)); [reflexivity|].
  destruct (denorm32 (data s) [mnist_mean] [mnist_std]) as [dd|e];
    [|reflexivity].
  simpl rbind.
  destruct (fgsm_attack32 dd epsilon (input_grad (data s) (target s)))
    as [pd|e]; [|reflexivity].
  destruct (Normalize32 [mnist_mean] [mnist_std] pd) as [pn|e]; [|reflexivity].
  destruct (argmax (model pn)) as [fp|e]; [|reflexivity].
  destruct (fp =? target s).
  - destruct (Qc_eq_bool epsilon 0 && (length adv_examples <? 5));
      reflexivity.
  - destruct (length adv_examples <? 5); reflexivity.
Qed.

(** A property of the loop state that the body keeps is kept by the loop. *)
Lemma test_loop32_invariant (I : nat * list AdvExample -> Prop) epsilon l :
  (forall st s st' w,
      In s l -> I st -> test_body32 epsilon st s = (Ok st', w) -> I st') ->
  forall st log st' log',
    I st -> test_loop32 epsilon l st log = (Ok st', log') -> I st'.
Proof.
  induction l as [|s l IH]; intros Hbody st log st' log' Hst; simpl.
  - intros [= <- _]. exact Hst.
  - destruct (test_body32 epsilon st s) as [[st1|e] w] eqn:E; [|discriminate].
    apply IH.
    + intros st0 s0 st0' w0 Hin. apply Hbody. right. exact Hin.
    + eapply Hbody; [left; reflexivity | exact Hst | exact E].
Qed.
End Test32Facts.

(** What the body of the loop, on either arithmetic, does to the list of
    examples: [before] and [after] are the predictions for a sample [s] of
    the loader that the network classified correctly before the attack. *)
Lemma stored_entries (l : list Sample) (stable : Prop) (epsilon : Qc)
    (s : Sample) (before after : nat) (pic : ndarray)
    (correct : nat) (ex : list AdvExample) (st' : nat * list AdvExample) :
  In s l -> before = target s ->
  (stable -> epsilon = 0 -> after = target s) ->
  (length ex <= 5)%nat /\
  (epsilon <> 0 -> Forall (adversarial_entry l) ex) /\
  (epsilon = 0 -> stable -> Forall (faithful_entry l) ex) ->
  (if after =? target s
   then (S correct,
         if Qc_eq_bool epsilon 0 && (length ex <? 5)
         then ex ++ [(before, after, pic)] else ex)
   else (correct,
         if length ex <? 5 then ex ++ [(before, after, pic)] else ex)) = st' ->
  (length (snd st') <= 5)%nat /\
  (epsilon <> 0 -> Forall (adversarial_entry l) (snd st')) /\
  (epsilon = 0 -> stable -> Forall (faithful_entry l) (snd st')).
Proof.
  intros Hin Hb Hstable (Hlen & Hadv & Hfaith).
  destruct (after =? target s) eqn:Et.
  - apply Nat.eqb_eq in Et.
    destruct (Qc_eq_bool epsilon 0) eqn:Ez; simpl andb;
      [destruct (length ex <? 5) eqn:El|]; intros <-; cbn [snd]; auto.
    apply Nat.ltb_lt in El. apply Qc_eq_bool_correct in Ez.
    split; [rewrite length_app; simpl; lia|]. split.
    + intros Hne. contradiction.
    + intros Hz Hs. apply Forall_app. split; [auto|].
      constructor; [|constructor]. exists s. simpl. auto.
  - apply Nat.eqb_neq in Et.
    destruct (length ex <? 5) eqn:El; intros <-; cbn [snd]; auto.
    apply Nat.ltb_lt in El.
    split; [rewrite length_app; simpl; lia|]. split.
    + intros Hne. apply Forall_app. split; [auto|].
      constructor; [|constructor]. exists s. simpl. auto.
    + intros Hz Hs. elim Et. auto.
Qed.

(** ** Pixels that may be NaN *)

Lemma mapM_Forall_in {A B} (P : B -> Prop) (f : A -> result B) (l : list A) zs :
  (forall x z, In x l -> f x = Ok z -> P z) -> mapM f l = Ok zs -> Forall P zs.
Proof.
  revert zs. induction l as [|x l IH]; simpl; intros zs HP H.
  - injection H as <-. constructor.
  - destruct (f x) as [z|] eqn:Ex; simpl in H; [|discriminate].
    destruct (mapM f l) as [zs'|]; simpl in H; [|discriminate].
    injection H as <-. constructor; eauto.
Qed.

(** Whatever the shapes, every entry of a result comes from [f] at an
    entry of the left operand. *)
Lemma broadcast_Forall_l {A B C} (Q : A -> Prop) (P : C -> Prop)
    (f : A -> B -> result C) xs ys zs :
  (forall x y z, Q x -> f x y = Ok z -> P z) ->
  Forall Q xs -> broadcast f xs ys = Ok zs -> Forall P zs.
Proof.
  intros HP HQ. rewrite Forall_forall in HQ. unfold broadcast.
  destruct (length xs =? length ys).
  - apply mapM_Forall_in. intros [x y] z Hin. apply HP, HQ.
    exact (in_combine_l _ _ _ _ Hin).
  - destruct xs as [|x [|x' xs]].
    + destruct ys as [|y [|y' ys]]; [discriminate | | discriminate].
      apply mapM_Forall_in. intros x z Hin. apply HP, HQ, Hin.
    + apply mapM_Forall_in. intros y z _. apply HP, HQ. left. reflexivity.
    + destruct ys as [|y [|y' ys]]; [discriminate | | discriminate].
      apply mapM_Forall_in. intros x0 z Hin. apply HP, HQ, Hin.
Qed.

Lemma lift4_Forall4_l {A B C} (Q : A -> Prop) (P : C -> Prop)
    (f : A -> B -> result C) t u out :
  (forall x y z, Q x -> f x y = Ok z -> P z) ->
  Forall4 Q t -> lift4 f t u = Ok out -> Forall4 P out.
Proof.
  intros H. unfold lift4, Forall4.
  apply broadcast_Forall_l; intros i i' o.
  apply broadcast_Forall_l; intros c c' oc.
  apply broadcast_Forall_l; intros r r' or.
  apply broadcast_Forall_l. exact H.
Qed.

Lemma Forall_map_impl {A B} (P : A -> Prop) (Q : B -> Prop) (f : A -> B) l :
  (forall x, P x -> Q (f x)) -> Forall P l -> Forall Q (map f l).
Proof. intros H HP. induction HP; simpl; constructor; auto. Qed.

Lemma Forall4_map4 {A B} (P : A -> Prop) (Q : B -> Prop) (f : A -> B) t :
  (forall x, P x -> Q (f x)) -> Forall4 P t -> Forall4 Q (map4 f t).
Proof.
  intros H. unfold Forall4, map4.
  apply Forall_map_impl; intros i. apply Forall_map_impl; intros c.
  apply Forall_map_impl; intros r. apply Forall_map_impl. exact H.
Qed.

Lemma combine_map_l {A A0 B} (g : A0 -> A) (xs : list A0) (ys : list B) :
  combine (map g xs) ys = map (fun p => (g (fst p), snd p)) (combine xs ys).
Proof.
  revert ys. induction xs as [|x xs IH]; intros [|y ys]; simpl;
    try reflexivity.
  rewrite IH. reflexivity.
Qed.

Lemma broadcast_map_l {A A0 B C} (f : A -> B -> result C)
    (f' : A0 -> B -> result C) (g : A0 -> A) xs ys :
  (forall x y, f (g x) y = f' x y) ->
  broadcast f (map g xs) ys = broadcast f' xs ys.
Proof.
  intros E. unfold broadcast. rewrite length_map.
  destruct (length xs =? length ys).
  - rewrite combine_map_l, mapM_map. apply mapM_ext. intros [x y]. apply E.
  - destruct xs as [|x [|x' xs]].
    + destruct ys as [|y [|y' ys]]; reflexivity.
    + simpl map. apply mapM_ext. intro. apply E.
    + destruct ys as [|y [|y' ys]]; [reflexivity | | reflexivity].
      rewrite mapM_map. apply mapM_ext. intro. apply E.
Qed.

(** On an image of numbers the attack with NaN pixels is the attack of
    the exact embedding. *)
Lemma fgsm_attack_nan_numbers image epsilon data_grad :
  fgsm_attack_nan (map4 Num image) epsilon data_grad
  = rmap (map4 Num) (fgsm_attack image epsilon data_grad).
Proof.
  unfold fgsm_attack_nan, fgsm_attack, pointwise.
  set (u := tmap (Qcmult epsilon) (tmap sign data_grad)).
  assert (E : lift4 (fun x g => Ok (pixel_plus x g)) (map4 Num image) u
              = rmap (map4 Num) (lift4 (fun x y => Ok (x + y)) image u)).
  { symmetry. unfold lift4, map4.
    etransitivity.
    - apply rmap_broadcast with
        (f' := broadcast (broadcast (broadcast
                 (fun x g => Ok (pixel_plus (Num x) g))))).
      intros i i'. apply rmap_broadcast; intros c c'.
      apply rmap_broadcast; intros r r'. apply rmap_broadcast.
      reflexivity.
    - symmetry.
      apply broadcast_map_l; intros i i'. apply broadcast_map_l; intros c c'.
      apply broadcast_map_l; intros r r'. apply broadcast_map_l.
      reflexivity. }
  rewrite E. destruct (lift4 _ image u) as [p|e]; [|reflexivity].
  simpl. f_equal. unfold map4, tmap.
  rewrite !map_map. apply map_ext; intros i.
  rewrite !map_map. apply map_ext; intros c.
  rewrite !map_map. apply map_ext; intros r.
  rewrite !map_map. reflexivity.
Qed.

(** ** 32-bit floats *)

(** The float nearest to 0.1. *)
Lemma float32_tenth : float32 (Q2Qc (1 # 10)) = Q2Qc (13421773 # 134217728).
Proof. apply Qc_is_canon. reflexivity. Qed.

Lemma float32_zero : float32 0 = 0.
Proof. apply Qc_is_canon. reflexivity. Qed.

Lemma fgsm_attack32_pointwise image epsilon data_grad :
  fgsm_attack32 image epsilon data_grad
  = pointwise
      (fun x g => clamp (add32 x (mul32 (float32 epsilon) (sign g))) 0 1)
      image data_grad.
Proof.
  unfold fgsm_attack32, pointwise. rewrite tmap_tmap.
  change (rmap (tmap (fun x => clamp x 0 1))
            (lift4 (fun x y => Ok (add32 x y)) image
               (tmap (fun g => mul32 (float32 epsilon) (sign g)) data_grad))
          = lift4 (fun x y =>
                     Ok (clamp (add32 x (mul32 (float32 epsilon) (sign y)))
                           0 1))
              image data_grad).
  rewrite (lift4_tmap_r (fun x y => Ok (add32 x y))
             (fun x g => Ok (add32 x (mul32 (float32 epsilon) (sign g)))))
    by reflexivity.
  apply rmap_lift4. reflexivity.
Qed.

(** At [epsilon = 0] an image of floats in range comes back as it is:
    no operation of the attack rounds. *)
Lemma fgsm_attack32_zero image data_grad :
  tForall (fun x => in_unit x /\ is_float32 x) image ->
  same_shape image data_grad ->
  fgsm_attack32 image 0 data_grad = Ok image.
Proof.
  intros Hu Hs. rewrite fgsm_attack32_pointwise. unfold pointwise.
  destruct (lift4_tForall2 (fun x _ => in_unit x /\ is_float32 x)
              (fun x y => y = x)
              (fun x g =>
                 Ok (clamp (add32 x (mul32 (float32 0) (sign g))) 0 1))
              image data_grad) as (out & -> & H).
  - revert Hu Hs. apply tForall2_and_l. auto.
  - intros x g [Hx Hf]. eexists. split; [reflexivity|].
    unfold add32, mul32. rewrite float32_zero, Qcmult_0_l, float32_zero.
    rewrite Qcplus_0_r, Hf. apply clamp_id, Hx.
  - f_equal. revert H. apply tForall2_is_eq. auto.
Qed.

(** * The claims *)

(** ** The attack *)

(** C1: for every image, epsilon and gradient, [fgsm_attack] is the
    element-wise computation [clamp(image + epsilon * sign(data_grad), 0, 1)]:
    it agrees with the broadcast of [fgsm_pixel], and on an image and a
    gradient of one shape every pixel is moved by [epsilon] times the sign
    of its own gradient entry and then clipped. *)
Theorem fgsm_attack_elementwise image epsilon data_grad :
  fgsm_attack image epsilon data_grad
  = fgsm_elementwise image epsilon data_grad
  /\ (same_shape image data_grad ->
      fgsm_attack image epsilon data_grad
      = Ok (tmap2 (fun x g => clamp (x + epsilon * sign g) 0 1)
              image data_grad)).
Proof.
  split.
  - apply fgsm_attack_pointwise.
  - apply fgsm_attack_tmap2.
Qed.

Lemma wide_same_shape : same_shape wide_image wide_grad.
Proof. repeat constructor. Qed.

Lemma unit_same_shape : same_shape unit_image wide_grad.
Proof. repeat constructor. Qed.

Lemma fgsm_attack_elementwise_witness :
  fgsm_attack wide_image (Q2Qc (1 # 4)) wide_grad
  = Ok (tmap2 (fun x g => clamp (x + Q2Qc (1 # 4) * sign g) 0 1)
          wide_image wide_grad).
Proof.
  apply (proj2 (fgsm_attack_elementwise wide_image (Q2Qc (1 # 4)) wide_grad)).
  exact wide_same_shape.
Defined.


Lemma wide_pixels_numbers : Forall4 is_number wide_pixels.
Proof. repeat constructor; discriminate. Qed.




Lemma unit_image_in_unit : tForall in_unit unit_image.
Proof. in_unit_compute. Qed.

Lemma float_image_floats :
  tForall (fun x => in_unit x /\ is_float32 x) float_image.
Proof.
  repeat constructor; try (vm_compute; discriminate);
    apply Qc_is_canon; reflexivity.
Qed.


Lemma sample_grey_level :
  Normalize32 [mnist_mean] [mnist_std] [[[[ToTensor 87]]]]
  = Ok (data sample_grey).
Proof.
  vm_compute. do 5 f_equal; apply Qc_is_canon; reflexivity.
Qed.


(** ** Normalisation *)

(** C7: [denorm] with mean 0.1307 and std 0.3081 is [x * std + mean] on
    every entry, and re-applying [Normalize((0.1307,), (0.3081,))] to its
    result gives the original batch back, in exact arithmetic. *)
Theorem Normalize_denorm_roundtrip batch :
  denorm batch [mnist_mean] [mnist_std]
  = Ok (tmap (fun x => x * mnist_std + mnist_mean) batch)
  /\ Normalize [mnist_mean] [mnist_std]
       (tmap (fun x => x * mnist_std + mnist_mean) batch)
     = Ok batch
  /\ rbind (denorm batch [mnist_mean] [mnist_std])
       (Normalize [mnist_mean] [mnist_std])
     = Ok batch.
Proof.
  assert (R := Normalize_denorm batch mnist_mean mnist_std mnist_std_nonzero).
  split; [apply denorm_scalar|]. split; [|exact R].
  rewrite denorm_scalar in R. exact R.
Qed.

(** ** The test loop *)

(** C4: the accuracy returned by [test] is [c / n], with [n] the number
    of batches of the test set and [c] the number of samples classified
    correctly both before the attack and after it; a sample whose initial
    prediction is wrong gets one forward pass and nothing else, and is not
    counted; the accuracy lies in [0, 1]. *)
Theorem test_returns_fraction_correct model input_grad test_loader epsilon :
  (forall x, model x <> []) ->
  (forall x t, same_shape x (input_grad x t)) ->
  test_loader <> [] ->
  exists acc adv_examples log,
    test model input_grad test_loader epsilon = (Ok (acc, adv_examples), log) /\
    acc = Q2Qc (Z.of_nat (count_correct model input_grad epsilon test_loader)
                # Pos.of_nat (length test_loader)) /\
    0 <= acc <= 1 /\
    map fst log = test_loader /\
    Forall (fun e => init_correct model (fst e) = false ->
                     snd e = [ForwardPass] /\
                     still_correct model input_grad epsilon (fst e) = false) log.
Proof.
  intros Hm Hg Hl.
  assert (Hn : length test_loader <> 0%nat)
    by (intros E; apply length_zero_iff_nil in E; contradiction).
  destruct (test_wf model input_grad Hm Hg epsilon test_loader) as [adv ->].
  rewrite (final_acc_nonempty _ _ Hn). simpl rbind.
  eexists. eexists. eexists. split; [reflexivity|].
  split; [reflexivity|]. split; [|split].
  - apply (fraction_unit _ _ Hn). apply filter_length_le.
  - rewrite map_map. simpl. apply map_id.
  - apply Forall_map, Forall_forall. intros s _. simpl. intros E.
    rewrite E. split; [reflexivity|].
    unfold still_correct. rewrite E. reflexivity.
Qed.

Lemma test_returns_fraction_correct_witness :
  exists acc adv_examples log,
    test notch_net notch_net_grad [sample_a; sample_w] (Q2Qc (1 # 20))
    = (Ok (acc, adv_examples), log) /\
    acc = Q2Qc (Z.of_nat (count_correct notch_net notch_net_grad
                            (Q2Qc (1 # 20)) [sample_a; sample_w])
                # Pos.of_nat (length [sample_a; sample_w])) /\
    0 <= acc <= 1 /\
    map fst log = [sample_a; sample_w] /\
    Forall (fun e => init_correct notch_net (fst e) = false ->
                     snd e = [ForwardPass] /\
                     still_correct notch_net notch_net_grad (Q2Qc (1 # 20))
                       (fst e) = false) log.
Proof.
  apply (test_returns_fraction_correct notch_net notch_net_grad [sample_a; sample_w]
           (Q2Qc (1 # 20))).
  - intros x. apply notch_model_classes.
  - intros x t. apply notch_grad_shape.
  - discriminate.
Defined.

(** C8: a call to [test] ends after one pass over the test set, for
    every test set: the samples it takes are samples of the loader, one
    after the other from the front, never one twice; for each of them the
    network runs forward at most twice and backward at most once; and when
    the call returns, as it does for a network that scores a class and a
    gradient of the shape of the image, every sample of the test set has
    been taken exactly once. *)
Theorem test_single_pass model input_grad test_loader epsilon :
  exists r log,
    test model input_grad test_loader epsilon = (r, log) /\
    Forall (fun e => (count_pass ForwardPass (snd e) <= 2)%nat /\
                     (count_pass BackwardPass (snd e) <= 1)%nat) log /\
    (exists rest, test_loader = map fst log ++ rest) /\
    ((exists res, r = Ok res) -> map fst log = test_loader) /\
    ((forall x, model x <> []) ->
     (forall x t, same_shape x (input_grad x t)) ->
     map fst log = test_loader /\
     (test_loader <> [] -> exists res, r = Ok res)).
Proof.
  destruct (test_log model input_grad epsilon test_loader)
    as (r & log & E & Hrest & Hall & Hb).
  exists r, log. split; [exact E|]. split; [exact Hb|].
  split; [exact Hrest|]. split; [exact Hall|].
  intros Hm Hg.
  destruct (test_wf model input_grad Hm Hg epsilon test_loader) as [adv E'].
  rewrite E' in E. injection E as <- <-. split.
  - rewrite map_map. simpl. apply map_id.
  - intros Hl. rewrite final_acc_nonempty
      by (intros E; apply length_zero_iff_nil in E; contradiction).
    eexists. reflexivity.
Qed.

Lemma test_single_pass_witness :
  exists r log,
    test notch_net notch_net_grad [sample_a; sample_w; sample_b]
      (Q2Qc (1 # 10)) = (r, log) /\
    map fst log = [sample_a; sample_w; sample_b] /\
    (exists res, r = Ok res).
Proof.
  destruct (test_single_pass notch_net notch_net_grad
              [sample_a; sample_w; sample_b] (Q2Qc (1 # 10)))
    as (r & log & E & _ & _ & _ & H).
  exists r, log. split; [exact E|].
  destruct H as [Hall Hret].
  - intros x. apply notch_model_classes.
  - intros x t. apply notch_grad_shape.
  - split; [exact Hall|]. apply Hret. discriminate.
Defined.

(** C3, as the code has it: the accuracy returned for any [epsilon] is at
    most the accuracy of the network on the unperturbed test set, since
    only a sample classified correctly before the attack can be counted;
    between two values of [epsilon] the code fixes no order. *)
Theorem accuracy_at_most_clean model input_grad test_loader epsilon :
  (forall x, model x <> []) ->
  (forall x t, same_shape x (input_grad x t)) ->
  test_loader <> [] ->
  exists acc adv_examples log,
    test model input_grad test_loader epsilon = (Ok (acc, adv_examples), log) /\
    acc <= Q2Qc (Z.of_nat (clean_correct model test_loader)
                 # Pos.of_nat (length test_loader)).
Proof.
  intros Hm Hg Hl.
  assert (Hn : length test_loader <> 0%nat)
    by (intros E; apply length_zero_iff_nil in E; contradiction).
  assert (Hle := fraction_le _ _ _ Hn
                   (count_correct_le_clean model input_grad epsilon test_loader)).
  destruct (test_wf model input_grad Hm Hg epsilon test_loader) as [adv ->].
  rewrite (final_acc_nonempty _ _ Hn). simpl rbind.
  eexists. eexists. eexists. split; [reflexivity | exact Hle].
Qed.

Lemma accuracy_at_most_clean_witness :
  exists acc adv_examples log,
    test notch_net notch_net_grad [sample_a; sample_w] (Q2Qc (1 # 10))
    = (Ok (acc, adv_examples), log) /\
    acc <= Q2Qc (Z.of_nat (clean_correct notch_net [sample_a; sample_w])
                 # Pos.of_nat (length [sample_a; sample_w])).
Proof.
  apply (accuracy_at_most_clean notch_net notch_net_grad
           [sample_a; sample_w] (Q2Qc (1 # 10))).
  - intros x. apply notch_model_classes.
  - intros x t. apply notch_grad_shape.
  - discriminate.
Defined.

(** C3 as stated fails: with one test image of pixel value 0.5 the
    network [notch_net] is fooled at [epsilon = 0.1] (accuracy 0) and is
    right again at [epsilon = 0.3] (accuracy 1). *)
Lemma accuracy_not_monotone_in_epsilon :
  exists acc1 adv1 log1 acc2 adv2 log2,
    test notch_net notch_net_grad [sample_a] (Q2Qc (1 # 10))
    = (Ok (acc1, adv1), log1) /\
    test notch_net notch_net_grad [sample_a] (Q2Qc (3 # 10))
    = (Ok (acc2, adv2), log2) /\
    Q2Qc (1 # 10) <= Q2Qc (3 # 10) /\
    acc1 = 0 /\ acc2 = 1 /\
    ~ acc2 <= acc1.
Proof.
  do 6 eexists.
  split; [vm_compute; reflexivity|].
  split; [vm_compute; reflexivity|].
  split; [vm_compute; discriminate|].
  split; [apply Qc_is_canon; vm_compute; reflexivity|].
  split; [apply Qc_is_canon; vm_compute; reflexivity|].
  intros H. vm_compute in H. apply H. reflexivity.
Qed.


Lemma notch_samples_stable s :
  In s [sample_a; sample_w; sample_b] ->
  attacked notch_net_grad 0 s = Ok (data s).
Proof.
  intros Hin.
  assert (Hr : in_range s).
  { destruct Hin as [<-|[<-|[<-|[]]]];
      apply one_pixel_in_range; in_unit_compute. }
  destruct (attacked_zero notch_net_grad (notch_grad_shape _ _ _) Hr)
    as (d & Ed & En).
  unfold attacked. rewrite Ed. exact En.
Qed.

Lemma sample_black_stable s :
  In s [sample_black] -> attacked32 step_grad 0 s = Ok (data s).
Proof.
  intros [<-|[]]. vm_compute. do 5 f_equal; apply Qc_is_canon; reflexivity.
Qed.



(** The same happens in exact arithmetic when a pixel lies outside
    [0, 1]: the one test image has its pixel at 1.5; the network [edge_net]
    finds its label 0, the clipping of the attack brings the pixel to 1,
    where the network answers 1, and the entry is stored. *)
Lemma test_zero_stores_misclassified :
  exists acc e log,
    test edge_net edge_net_grad [sample_far] 0 = (Ok (acc, [e]), log) /\
    fst (fst e) = target sample_far /\
    snd (fst e) <> target sample_far.
Proof.
  do 3 eexists. split; [vm_compute; reflexivity|].
  split; [reflexivity | discriminate].
Qed.

(** C10, as the code has it: the loader shuffles, so two runs of [test]
    take the samples of the test set in two orders.  The accuracy they
    return is the same whatever the two orders are; the whole result,
    list of adversarial examples included, is the same when the two runs
    take the samples in the same order. *)
Theorem test_deterministic_up_to_order model input_grad run1 run2 epsilon :
  (forall x, model x <> []) ->
  (forall x t, same_shape x (input_grad x t)) ->
  Permutation run1 run2 ->
  rmap fst (fst (test model input_grad run1 epsilon))
  = rmap fst (fst (test model input_grad run2 epsilon))
  /\ (run1 = run2 ->
      test model input_grad run1 epsilon = test model input_grad run2 epsilon).
Proof.
  intros Hm Hg Hp. split; [|intros ->; reflexivity].
  destruct (test_wf model input_grad Hm Hg epsilon run1) as [adv1 ->].
  destruct (test_wf model input_grad Hm Hg epsilon run2) as [adv2 ->].
  cbn [fst]. unfold count_correct.
  rewrite (filter_length_Permutation _ _ _ Hp), (Permutation_length Hp).
  destruct (final_acc _ _); reflexivity.
Qed.

Lemma test_deterministic_up_to_order_witness :
  rmap fst (fst (test notch_net notch_net_grad [sample_a; sample_w; sample_b]
                   (Q2Qc (1 # 20))))
  = rmap fst (fst (test notch_net notch_net_grad
                     [sample_w; sample_a; sample_b] (Q2Qc (1 # 20)))).
Proof.
  apply (test_deterministic_up_to_order notch_net notch_net_grad
           [sample_a; sample_w; sample_b] [sample_w; sample_a; sample_b]
           (Q2Qc (1 # 20))).
  - intros x. apply notch_model_classes.
  - intros x t. apply notch_grad_shape.
  - apply perm_swap.
Defined.

(** C10 as stated fails: two runs over the same two test images, taken in
    the two possible orders, return the two adversarial examples in two
    different orders. *)
Lemma adv_examples_depend_on_order :
  Permutation [sample_a; sample_b] [sample_b; sample_a] /\
  exists acc1 adv1 log1 acc2 adv2 log2,
    test notch_net notch_net_grad [sample_a; sample_b] (Q2Qc (1 # 10))
    = (Ok (acc1, adv1), log1) /\
    test notch_net notch_net_grad [sample_b; sample_a] (Q2Qc (1 # 10))
    = (Ok (acc2, adv2), log2) /\
    acc1 = acc2 /\
    map (fun e => map this (snd (snd e))) adv1 = [[2 # 5]; [39 # 100]] /\
    map (fun e => map this (snd (snd e))) adv2 = [[39 # 100]; [2 # 5]] /\
    adv1 <> adv2.
Proof.
  split; [apply perm_swap|].
  do 6 eexists.
  split; [vm_compute; reflexivity|].
  split; [vm_compute; reflexivity|].
  split; [reflexivity|].
  split; [reflexivity|].
  split; [reflexivity|].
  intros H. discriminate H.
Qed.

(** * Further properties of the code *)

(** ** Lists *)

Lemma Forall2_map_l_iff {A A' B} (g : A -> A') (R : A' -> B -> Prop) xs ys :
  Forall2 R (map g xs) ys <-> Forall2 (fun x y => R (g x) y) xs ys.
Proof.
  split; [|apply Forall2_map_l].
  revert ys. induction xs as [|x xs IH]; intros ys H; inversion H; subst;
    constructor; auto.
Qed.

Lemma Forall_concat {A} (P : A -> Prop) (ll : list (list A)) :
  Forall (Forall P) ll -> Forall P (concat ll).
Proof.
  induction 1 as [|l ll Hl _ IH]; simpl; [constructor|].
  apply Forall_app. split; assumption.
Qed.

Lemma broadcast_Forall3 {A B C} (S : A -> B -> Prop) (R : A -> B -> C -> Prop)
    (f : A -> B -> result C) xs ys :
  Forall2 S xs ys ->
  (forall x y, S x y -> exists z, f x y = Ok z /\ R x y z) ->
  exists zs, broadcast f xs ys = Ok zs /\ Forall3 R xs ys zs.
Proof.
  intros HS Hf. unfold broadcast.
  rewrite (Forall2_length HS), Nat.eqb_refl.
  induction HS as [|x y xs ys Hxy _ IH]; simpl.
  - exists []. split; [reflexivity | constructor].
  - destruct (Hf x y Hxy) as (z & -> & Rz).
    destruct IH as (zs & -> & Rzs). simpl.
    exists (z :: zs). split; [reflexivity | constructor; assumption].
Qed.

Lemma lift4_tForall3 (S : Qc -> Qc -> Prop) (R : Qc -> Qc -> Qc -> Prop)
    (f : Qc -> Qc -> result Qc) t u :
  tForall2 S t u ->
  (forall x y, S x y -> exists z, f x y = Ok z /\ R x y z) ->
  exists out, lift4 f t u = Ok out /\ tForall3 R t u out.
Proof.
  intros HS H. unfold lift4, tForall2, tForall3 in *.
  eapply broadcast_Forall3; [exact HS|]. intros i i' Hi.
  eapply broadcast_Forall3; [exact Hi|]. intros c c' Hc.
  eapply broadcast_Forall3; [exact Hc|]. intros r r' Hr.
  eapply broadcast_Forall3; [exact Hr|]. exact H.
Qed.

Lemma broadcast_mismatch {A B C} (f : A -> B -> result C) xs ys :
  length xs <> length ys -> length xs <> 1%nat -> length ys <> 1%nat ->
  broadcast f xs ys = Raise RuntimeError.
Proof.
  intros Hne Hx Hy. unfold broadcast.
  apply Nat.eqb_neq in Hne. rewrite Hne.
  destruct xs as [|x [|x' xs]]; destruct ys as [|y [|y' ys]];
    simpl in *; congruence.
Qed.

(** ** More on the attack *)

Lemma sign_pos (g : Qc) : 0 < g -> sign g = 1.
Proof.
  intros H. unfold sign.
  assert (E : (g ?= 0) = Gt) by (apply Qcgt_alt; exact H).
  rewrite E. reflexivity.
Qed.

Lemma sign_neg (g : Qc) : g < 0 -> sign g = Qcopp 1.
Proof.
  intros H. unfold sign.
  assert (E : (g ?= 0) = Lt) by (apply Qclt_alt; exact H).
  rewrite E. reflexivity.
Qed.

Lemma sign_zero : sign 0 = 0.
Proof. reflexivity. Qed.

Lemma fgsm_pixel_up (epsilon x g : Qc) :
  in_unit x -> 0 <= epsilon -> 0 < g ->
  fgsm_pixel epsilon x g = Qcmin (x + epsilon) 1.
Proof.
  intros [H0 H1] He Hg. unfold fgsm_pixel, clamp.
  rewrite (sign_pos g Hg), Qcmult_1_r. f_equal.
  unfold Qcmax.
  assert (E : Qc_ltb (x + epsilon) 0 = false) by (apply Qc_ltb_false; qc_lra).
  rewrite E. reflexivity.
Qed.

Lemma fgsm_pixel_down (epsilon x g : Qc) :
  in_unit x -> 0 <= epsilon -> g < 0 ->
  fgsm_pixel epsilon x g = Qcmax (x - epsilon) 0.
Proof.
  intros [H0 H1] He Hg. unfold fgsm_pixel, clamp.
  rewrite (sign_neg g Hg).
  replace (x + epsilon * Qcopp 1) with (x - epsilon) by ring.
  unfold Qcmin.
  assert (E : Qc_ltb 1 (Qcmax (x - epsilon) 0) = false).
  { apply Qc_ltb_false. unfold Qcmax.
    destruct (Qc_ltb (x - epsilon) 0); qc_lra. }
  rewrite E. reflexivity.
Qed.

Lemma fgsm_pixel_flat (epsilon x : Qc) :
  in_unit x -> fgsm_pixel epsilon x 0 = x.
Proof.
  intros H. unfold fgsm_pixel.
  rewrite sign_zero, Qcmult_0_r, Qcplus_0_r. apply clamp_id, H.
Qed.

(** The attack moves every pixel of an image in range the way its
    gradient entry points, by [epsilon] or up to the end of the range:
    up to [min(x + epsilon, 1)] for a positive entry, down to
    [max(x - epsilon, 0)] for a negative one, and not at all for a zero
    entry. *)
Theorem fgsm_attack_direction image epsilon data_grad :
  tForall in_unit image -> 0 <= epsilon -> same_shape image data_grad ->
  exists out,
    fgsm_attack image epsilon data_grad = Ok out /\
    tForall3 (fun x g o =>
                (0 < g -> o = Qcmin (x + epsilon) 1) /\
                (g < 0 -> o = Qcmax (x - epsilon) 0) /\
                (g = 0 -> o = x)) image data_grad out.
Proof.
  intros Hu He Hs. rewrite fgsm_attack_pointwise. unfold pointwise.
  apply lift4_tForall3 with (S := fun x _ => in_unit x).
  - revert Hu Hs. apply tForall2_and_l. auto.
  - intros x g Hx. eexists. split; [reflexivity|].
    split; [|split].
    + apply fgsm_pixel_up; assumption.
    + apply fgsm_pixel_down; assumption.
    + intros ->. apply fgsm_pixel_flat, Hx.
Qed.

Lemma fgsm_attack_direction_witness :
  exists out,
    fgsm_attack unit_image (Q2Qc (1 # 4)) wide_grad = Ok out /\
    tForall3 (fun x g o =>
                (0 < g -> o = Qcmin (x + Q2Qc (1 # 4)) 1) /\
                (g < 0 -> o = Qcmax (x - Q2Qc (1 # 4)) 0) /\
                (g = 0 -> o = x)) unit_image wide_grad out.
Proof.
  apply (fgsm_attack_direction unit_image (Q2Qc (1 # 4)) wide_grad).
  - exact unit_image_in_unit.
  - vm_compute. discriminate.
  - exact unit_same_shape.
Defined.

(** On an image and a gradient of one shape the attack returns a tensor
    of that shape, whatever the pixels and [epsilon] are. *)
Theorem fgsm_attack_shape image epsilon data_grad :
  same_shape image data_grad ->
  exists out,
    fgsm_attack image epsilon data_grad = Ok out /\ same_shape image out.
Proof.
  intros Hs. rewrite fgsm_attack_pointwise. unfold pointwise.
  apply lift4_tForall2 with (S := fun _ _ => True); [exact Hs|].
  intros x y _. eexists. split; [reflexivity | exact I].
Qed.

Lemma fgsm_attack_shape_witness :
  exists out,
    fgsm_attack wide_image (Q2Qc (1 # 4)) wide_grad = Ok out /\
    same_shape wide_image out.
Proof.
  apply (fgsm_attack_shape wide_image (Q2Qc (1 # 4)) wide_grad).
  exact wide_same_shape.
Defined.

(** A batch of images and a batch of gradients of different sizes, none
    of them of size 1, cannot be broadcast: the attack raises. *)
Theorem fgsm_attack_batch_mismatch image epsilon data_grad :
  length image <> length data_grad ->
  length image <> 1%nat -> length data_grad <> 1%nat ->
  fgsm_attack image epsilon data_grad = Raise RuntimeError.
Proof.
  intros Hne Hi Hg. rewrite fgsm_attack_pointwise.
  unfold pointwise, lift4. apply broadcast_mismatch; assumption.
Qed.

Lemma fgsm_attack_batch_mismatch_witness :
  fgsm_attack (wide_image ++ wide_image) (Q2Qc (1 # 4))
    (wide_grad ++ wide_grad ++ wide_grad) = Raise RuntimeError.
Proof.
  apply (fgsm_attack_batch_mismatch (wide_image ++ wide_image) (Q2Qc (1 # 4))
           (wide_grad ++ wide_grad ++ wide_grad)); simpl; lia.
Defined.

(** ** Normalisation with one mean and one std for each channel *)

Lemma mapM_Ok_Forall {A B} (P : A -> Prop) (f : A -> result B) (g : A -> B) l :
  Forall P l -> (forall x, P x -> f x = Ok (g x)) -> mapM f l = Ok (map g l).
Proof.
  intros HP H. induction HP as [|x l Hx _ IH]; simpl; [reflexivity|].
  rewrite (H x Hx), IH. reflexivity.
Qed.

Lemma broadcast__singleton_r {A B} (f : A -> B -> result A) xs y :
  broadcast_ f xs [y] = mapM (fun x => f x y) xs.
Proof.
  unfold broadcast_. destruct xs as [|x [|x' xs]]; reflexivity.
Qed.

Lemma broadcast__same_length {A B} (f : A -> B -> result A) xs ys :
  length xs = length ys -> broadcast_ f xs ys = broadcast f xs ys.
Proof.
  intros E. unfold broadcast_, broadcast. rewrite E, Nat.eqb_refl. reflexivity.
Qed.

Lemma map2_length {A B C} (f : A -> B -> C) xs ys :
  length xs = length ys -> length (map2 f xs ys) = length ys.
Proof.
  intros E. unfold map2. rewrite length_map, length_combine, E.
  apply Nat.min_id.
Qed.

Lemma Forall2_True_of_length {A B} (xs : list A) (ys : list B) :
  length xs = length ys -> Forall2 (fun _ _ => True) xs ys.
Proof.
  revert ys. induction xs as [|x xs IH]; intros [|y ys] E;
    try discriminate; constructor; auto.
Qed.

(** One image against the view of a list of as many values as it has
    channels. *)
Lemma image_view_channels (op : Qc -> Qc -> Qc) (img : Image) (l : list Qc) :
  length img = length l ->
  broadcast (broadcast (broadcast (fun x y => Ok (op x y)))) img
    (map (fun m => [[m]]) l)
  = Ok (map2 (fun (ch : Channel) v => map (map (fun x => op x v)) ch) img l).
Proof.
  intros E.
  rewrite (broadcast_map_r _
             (fun (ch : Channel) v =>
                Ok (map (map (fun x => op x v)) ch)) (fun m => [[m]])).
  - apply (broadcast_map2 (fun _ _ => True));
      [apply Forall2_True_of_length, E | reflexivity].
  - intros ch v. apply broadcast_const_r; intros r.
    apply broadcast_const_r; intros x. reflexivity.
Qed.

Lemma image_view_channels_ (op : Qc -> Qc -> Qc) (img : Image) (l : list Qc) :
  length img = length l ->
  broadcast_ (broadcast_ (broadcast_ (fun x y => Ok (op x y)))) img
    (map (fun m => [[m]]) l)
  = Ok (map2 (fun (ch : Channel) v => map (map (fun x => op x v)) ch) img l).
Proof.
  intros E. rewrite broadcast__same_length by (rewrite length_map; exact E).
  rewrite (broadcast_map_r _
             (fun (ch : Channel) v =>
                Ok (map (map (fun x => op x v)) ch)) (fun m => [[m]])).
  - apply (broadcast_map2 (fun _ _ => True));
      [apply Forall2_True_of_length, E | reflexivity].
  - intros ch v. apply broadcast__const_r; intros r.
    apply broadcast__const_r; intros x. reflexivity.
Qed.

Lemma pointwise_view_channels op batch l :
  channels (length l) batch ->
  pointwise op batch (view l) = Ok (per_channel op batch l).
Proof.
  intros H. unfold pointwise, lift4, view, per_channel.
  rewrite broadcast_singleton_r.
  apply (mapM_Ok_Forall _ _ _ _ H). intros img E.
  apply image_view_channels, E.
Qed.

Lemma pointwise__view_channels op batch l :
  channels (length l) batch ->
  pointwise_ op batch (view l) = Ok (per_channel op batch l).
Proof.
  intros H. unfold pointwise_, lift4_, view, per_channel.
  rewrite broadcast__singleton_r.
  apply (mapM_Ok_Forall _ _ _ _ H). intros img E.
  apply image_view_channels_, E.
Qed.

Lemma per_channel_channels op batch l :
  channels (length l) batch -> channels (length l) (per_channel op batch l).
Proof.
  unfold channels, per_channel. intros H.
  apply Forall_map. revert H. apply Forall_impl. intros img E.
  apply map2_length, E.
Qed.

Lemma per_channel_channels_of k op batch l :
  length l = k -> channels k batch -> channels k (per_channel op batch l).
Proof. intros <-. apply per_channel_channels. Qed.

Lemma existsb_zero_false (std : list Qc) :
  Forall (fun s => s <> 0) std ->
  existsb (fun s => Qc_eq_bool s 0) std = false.
Proof.
  induction 1 as [|s std Hs _ IH]; simpl; [reflexivity|].
  rewrite (Qc_eq_bool_false Hs), IH. reflexivity.
Qed.

Lemma map_map_id (f : Qc -> Qc) (ch : Channel) :
  (forall x, f x = x) -> map (map f) ch = ch.
Proof.
  intros E. rewrite <- (map_id ch) at 2. apply map_ext; intros r.
  rewrite <- (map_id r) at 2. apply map_ext, E.
Qed.

Lemma renorm_denorm_image (img : Image) (mean std : list Qc) :
  length mean = length std -> length img = length std ->
  Forall (fun s => s <> 0) std ->
  map2 (fun (ch : Channel) s => map (map (fun x => x / s)) ch)
    (map2 (fun (ch : Channel) m => map (map (fun x => x - m)) ch)
       (map2 (fun (ch : Channel) m => map (map (fun x => x + m)) ch)
          (map2 (fun (ch : Channel) s => map (map (fun x => x * s)) ch) img std)
          mean)
       mean)
    std
  = img.
Proof.
  intros Em Ei Hs. revert img mean Em Ei.
  induction Hs as [|s std Hs _ IH]; intros [|ch img] [|m mean] Em Ei;
    try discriminate; [reflexivity|].
  unfold map2 in *. simpl. f_equal.
  - rewrite !map_map.
    apply eq_trans with (map (fun r : Row => r) ch); [|apply map_id].
    apply map_ext; intros r. rewrite !map_map.
    apply eq_trans with (map (fun x : Qc => x) r); [|apply map_id].
    apply map_ext; intros x. apply renorm_denorm_pixel, Hs.
  - apply IH; simpl in *; congruence.
Qed.

Lemma denorm_renorm_image (img : Image) (mean std : list Qc) :
  length mean = length std -> length img = length std ->
  Forall (fun s => s <> 0) std ->
  map2 (fun (ch : Channel) m => map (map (fun x => x + m)) ch)
    (map2 (fun (ch : Channel) s => map (map (fun x => x * s)) ch)
       (map2 (fun (ch : Channel) s => map (map (fun x => x / s)) ch)
          (map2 (fun (ch : Channel) m => map (map (fun x => x - m)) ch) img mean)
          std)
       std)
    mean
  = img.
Proof.
  intros Em Ei Hs. revert img mean Em Ei.
  induction Hs as [|s std Hs _ IH]; intros [|ch img] [|m mean] Em Ei;
    try discriminate; [reflexivity|].
  unfold map2 in *. simpl. f_equal.
  - rewrite !map_map.
    apply eq_trans with (map (fun r : Row => r) ch); [|apply map_id].
    apply map_ext; intros r. rewrite !map_map.
    apply eq_trans with (map (fun x : Qc => x) r); [|apply map_id].
    apply map_ext; intros x. apply (denorm_renorm_pixel m x Hs).
  - apply IH; simpl in *; congruence.
Qed.

(** [denorm] with as many means and stds as the images have channels
    scales and shifts each channel with its own std and mean; with stds
    that are not zero, [Normalize] with the same means and stds undoes it,
    and it undoes [Normalize]: the batch comes back in both orders. *)
Theorem denorm_Normalize_per_channel batch mean std :
  length mean = length std -> channels (length std) batch ->
  Forall (fun s => s <> 0) std ->
  denorm batch mean std
  = Ok (per_channel Qcplus (per_channel Qcmult batch std) mean)
  /\ rbind (denorm batch mean std) (Normalize mean std) = Ok batch
  /\ rbind (Normalize mean std batch) (fun t => denorm t mean std) = Ok batch.
Proof.
  intros Em Hc Hs.
  assert (Hc' : channels (length mean) batch) by (rewrite Em; exact Hc).
  assert (K : forall op l t, length l = length std ->
                channels (length std) t ->
                channels (length std) (per_channel op t l))
    by (intros op l t; apply per_channel_channels_of).
  assert (D : denorm batch mean std
              = Ok (per_channel Qcplus (per_channel Qcmult batch std) mean)).
  { unfold denorm. rewrite (pointwise_view_channels _ _ _ Hc). simpl rbind.
    apply pointwise_view_channels. rewrite Em. auto. }
  split; [exact D|]. split.
  - rewrite D. simpl rbind. unfold Normalize.
    rewrite (existsb_zero_false _ Hs).
    rewrite pointwise__view_channels by (rewrite Em; auto).
    simpl rbind.
    rewrite pointwise__view_channels by auto 6.
    f_equal. unfold per_channel. rewrite !map_map.
    apply eq_trans with (map (fun i : Image => i) batch); [|apply map_id].
    apply map_ext_Forall. revert Hc. apply Forall_impl. intros img Ei.
    apply renorm_denorm_image; assumption.
  - unfold Normalize. rewrite (existsb_zero_false _ Hs).
    rewrite (pointwise__view_channels _ _ _ Hc'). simpl rbind.
    rewrite pointwise__view_channels by auto.
    simpl rbind. unfold denorm.
    rewrite pointwise_view_channels by auto 6.
    simpl rbind.
    rewrite pointwise_view_channels by (rewrite Em; auto 8).
    f_equal. unfold per_channel. rewrite !map_map.
    apply eq_trans with (map (fun i : Image => i) batch); [|apply map_id].
    apply map_ext_Forall. revert Hc. apply Forall_impl. intros img Ei.
    apply denorm_renorm_image; assumption.
Qed.

Ltac Qc_nonzero :=
  let E := fresh "E" in intros E; apply (f_equal this) in E; discriminate E.

Lemma rgb_std_nonzero : Forall (fun s => s <> 0) rgb_std.
Proof. repeat constructor; Qc_nonzero. Qed.

Lemma denorm_Normalize_per_channel_witness :
  denorm rgb_batch rgb_mean rgb_std
  = Ok (per_channel Qcplus (per_channel Qcmult rgb_batch rgb_std) rgb_mean)
  /\ rbind (denorm rgb_batch rgb_mean rgb_std) (Normalize rgb_mean rgb_std)
     = Ok rgb_batch
  /\ rbind (Normalize rgb_mean rgb_std rgb_batch)
       (fun t => denorm t rgb_mean rgb_std) = Ok rgb_batch.
Proof.
  apply (denorm_Normalize_per_channel rgb_batch rgb_mean rgb_std).
  - reflexivity.
  - repeat constructor.
  - exact rgb_std_nonzero.
Defined.

(** With one mean and one std that is not zero, for every tensor,
    whatever its number of channels: [Normalize] undoes [denorm] and
    [denorm] undoes [Normalize]. *)
Theorem denorm_Normalize_inverse t m s :
  s <> 0 ->
  rbind (denorm t [m] [s]) (Normalize [m] [s]) = Ok t
  /\ rbind (Normalize [m] [s] t) (fun n => denorm n [m] [s]) = Ok t.
Proof.
  intros Hs. split; [apply Normalize_denorm, Hs|].
  rewrite (Normalize_scalar t m Hs). simpl rbind.
  rewrite denorm_scalar, tmap_tmap. f_equal.
  apply tmap_id. intros x. apply (denorm_renorm_pixel m x Hs).
Qed.

Lemma denorm_Normalize_inverse_witness :
  rbind (denorm rgb_batch [Q2Qc (1 # 10)] [Q2Qc (7 # 2)])
    (Normalize [Q2Qc (1 # 10)] [Q2Qc (7 # 2)]) = Ok rgb_batch
  /\ rbind (Normalize [Q2Qc (1 # 10)] [Q2Qc (7 # 2)] rgb_batch)
       (fun n => denorm n [Q2Qc (1 # 10)] [Q2Qc (7 # 2)]) = Ok rgb_batch.
Proof.
  apply (denorm_Normalize_inverse rgb_batch (Q2Qc (1 # 10)) (Q2Qc (7 # 2))).
  Qc_nonzero.
Defined.

(** [denorm] raises on a batch that is not empty when the number of
    channels of its images and the number of stds differ and neither is
    1: the two cannot be broadcast. *)
Theorem denorm_channel_mismatch batch mean std c :
  batch <> [] -> channels c batch ->
  c <> length std -> c <> 1%nat -> length std <> 1%nat ->
  denorm batch mean std = Raise RuntimeError.
Proof.
  intros Hb Hc Hne Hc1 Hs1. unfold denorm, pointwise, lift4, view.
  rewrite broadcast_singleton_r.
  destruct batch as [|img batch]; [contradiction|].
  apply Forall_inv in Hc. subst c. simpl mapM.
  rewrite broadcast_mismatch; [reflexivity | | exact Hc1 |];
    rewrite length_map; assumption.
Qed.

Lemma denorm_channel_mismatch_witness :
  denorm rgb_batch [Q2Qc (1 # 10); 0] [Q2Qc (7 # 2); 1] = Raise RuntimeError.
Proof.
  apply (denorm_channel_mismatch rgb_batch [Q2Qc (1 # 10); 0]
           [Q2Qc (7 # 2); 1] 3).
  - discriminate.
  - repeat constructor.
  - simpl. lia.
  - lia.
  - simpl. lia.
Defined.

(** ** The prediction *)

Lemma argmax_from_spec (l pre : list Qc) (best_i : nat) (best : Qc) :
  nth_error pre best_i = Some best ->
  (forall x, In x pre -> x <= best) ->
  (forall j x, (j < best_i)%nat -> nth_error pre j = Some x -> x < best) ->
  exists v,
    nth_error (pre ++ l) (argmax_from best_i best (length pre) l) = Some v /\
    (forall x, In x (pre ++ l) -> x <= v) /\
    (forall j x, (j < argmax_from best_i best (length pre) l)%nat ->
                 nth_error (pre ++ l) j = Some x -> x < v).
Proof.
  revert pre best_i best.
  induction l as [|y l IH]; intros pre bi b Hb Hmax Hfirst; simpl.
  - rewrite app_nil_r. exists b. auto.
  - assert (Hbi : (bi < length pre)%nat)
      by (apply nth_error_Some; rewrite Hb; discriminate).
    replace (pre ++ y :: l) with ((pre ++ [y]) ++ l)
      by (rewrite <- app_assoc; reflexivity).
    replace (S (length pre)) with (length (pre ++ [y]))
      by (rewrite length_app; simpl; lia).
    destruct (Qc_ltb b y) eqn:E.
    + apply Qc_ltb_spec in E. apply IH.
      * rewrite nth_error_app2, Nat.sub_diag by lia. reflexivity.
      * intros x Hx. apply in_app_or in Hx. destruct Hx as [Hx|[<-|[]]].
        -- apply Qclt_le_weak. eapply Qcle_lt_trans; [apply Hmax, Hx | exact E].
        -- apply Qcle_refl.
      * intros j x Hj Hx. rewrite nth_error_app1 in Hx by exact Hj.
        eapply Qcle_lt_trans; [|exact E].
        apply Hmax. eapply nth_error_In, Hx.
    + apply Qc_ltb_false in E. apply IH.
      * rewrite nth_error_app1 by exact Hbi. exact Hb.
      * intros x Hx. apply in_app_or in Hx. destruct Hx as [Hx|[<-|[]]].
        -- apply Hmax, Hx.
        -- exact E.
      * intros j x Hj Hx. rewrite nth_error_app1 in Hx by lia.
        eapply Hfirst; eassumption.
Qed.

(** The prediction is the index of a largest score, and the first such
    index: it is a class of the row, no score is larger than the score
    there, and every score before it is smaller. *)
Theorem argmax_first_largest (output : list Qc) (i : nat) :
  argmax output = Ok i ->
  exists v,
    nth_error output i = Some v /\
    (forall x, In x output -> x <= v) /\
    (forall j x, (j < i)%nat -> nth_error output j = Some x -> x < v).
Proof.
  destruct output as [|y l]; [discriminate|]. intros [= <-].
  apply (argmax_from_spec l [y] 0 y).
  - reflexivity.
  - intros x [<-|[]]. apply Qcle_refl.
  - intros j x Hj. lia.
Qed.

Lemma argmax_first_largest_witness :
  exists v,
    nth_error [Q2Qc (1 # 2); Q2Qc (3 # 1); Q2Qc (-1 # 1); Q2Qc (3 # 1)] 1
    = Some v /\
    (forall x, In x [Q2Qc (1 # 2); Q2Qc (3 # 1); Q2Qc (-1 # 1); Q2Qc (3 # 1)]
               -> x <= v) /\
    (forall j x, (j < 1)%nat ->
                 nth_error [Q2Qc (1 # 2); Q2Qc (3 # 1); Q2Qc (-1 # 1);
                            Q2Qc (3 # 1)] j = Some x -> x < v).
Proof.
  apply (argmax_first_largest
           [Q2Qc (1 # 2); Q2Qc (3 # 1); Q2Qc (-1 # 1); Q2Qc (3 # 1)] 1).
  reflexivity.
Defined.

(** ** More on the test loop *)

Lemma tForall2_tmap_l_inv (g : Qc -> Qc) (R : Qc -> Qc -> Prop) t u :
  tForall2 R (tmap g t) u -> tForall2 (fun x y => R (g x) y) t u.
Proof.
  unfold tForall2, tmap. intros H.
  apply (proj1 (Forall2_map_l_iff (map (map (map g))) _ _ _)) in H.
  revert H. apply Forall2_impl; intros i i' H.
  apply (proj1 (Forall2_map_l_iff (map (map g)) _ _ _)) in H.
  revert H. apply Forall2_impl; intros c c' H.
  apply (proj1 (Forall2_map_l_iff (map g) _ _ _)) in H.
  revert H. apply Forall2_impl; intros r r' H.
  apply (proj1 (Forall2_map_l_iff g _ _ _)) in H. exact H.
Qed.

Lemma tForall2_tmap_r (g : Qc -> Qc) (R : Qc -> Qc -> Prop) t u :
  tForall2 (fun x y => R x (g y)) t u -> tForall2 R t (tmap g u).
Proof.
  unfold tForall2, tmap. intros H.
  apply Forall2_map_r. revert H. apply Forall2_impl; intros i i' H.
  apply Forall2_map_r. revert H. apply Forall2_impl; intros c c' H.
  apply Forall2_map_r. revert H. apply Forall2_impl; intros r r' H.
  apply Forall2_map_r. exact H.
Qed.

Lemma renorm_close (m s epsilon x o : Qc) :
  s <> 0 -> 0 <= / s ->
  Qcabs.Qcabs (o - (x * s + m)) <= epsilon ->
  Qcabs.Qcabs ((o - m) / s - x) <= epsilon / s.
Proof.
  intros Hs Hi H.
  replace ((o - m) / s - x) with ((o - (x * s + m)) * / s) by (field; exact Hs).
  rewrite Qcabs.Qcabs_Qcmult, (Qcabs.Qcabs_pos (/ s) Hi).
  apply Qcmult_le_compat_r; assumption.
Qed.

Lemma mnist_std_inv_nonneg : 0 <= / mnist_std.
Proof. vm_compute. discriminate. Qed.

Lemma fgsm_attack_unit_out image epsilon data_grad out :
  fgsm_attack image epsilon data_grad = Ok out -> tForall in_unit out.
Proof.
  rewrite fgsm_attack_pointwise. unfold pointwise, tForall.
  apply lift4_tForall. intros x g z [= <-]. apply clamp_range.
Qed.

Lemma tForall_flatten (P : Qc -> Prop) t : tForall P t -> Forall P (flatten t).
Proof.
  unfold tForall, flatten. intros H.
  apply Forall_concat, Forall_concat, Forall_concat.
  revert H. apply Forall_impl; intros i.
  apply Forall_impl; intros c H. exact H.
Qed.

Section MoreTestFacts.
Variable model : Tensor -> list Qc.
Variable input_grad : Tensor -> nat -> Tensor.

Local Abbreviation predict := (predict model).
Local Abbreviation perturbed := (perturbed input_grad).
Local Abbreviation attacked := (attacked input_grad).
Local Abbreviation init_correct := (init_correct model).
Local Abbreviation still_correct := (still_correct model input_grad).
Local Abbreviation count_correct := (count_correct model input_grad).
Local Abbreviation eligible := (eligible model input_grad).
Local Abbreviation stored_from := (stored_from model input_grad).
Local Abbreviation test_body := (test_body model input_grad).
Local Abbreviation test_loop := (test_loop model input_grad).
Local Abbreviation test := (test model input_grad).

(** In exact arithmetic, what the network sees of a sample in range
    after the attack is within [epsilon / std] of what it saw before. *)
Lemma attacked_near epsilon s :
  in_range s -> 0 <= epsilon ->
  same_shape (data s) (input_grad (data s) (target s)) ->
  exists t,
    attacked epsilon s = Ok t /\
    tForall2 (fun x y => Qcabs.Qcabs (y - x) <= epsilon / mnist_std)
      (data s) t.
Proof.
  intros (d & Ed & Hd) He Hs. unfold attacked, perturbed.
  rewrite Ed. simpl rbind.
  rewrite denorm_scalar in Ed. injection Ed as <-.
  destruct (fgsm_attack_near _ epsilon (input_grad (data s) (target s)) Hd He)
    as (out & -> & H); [apply same_shape_tmap_l, Hs|].
  simpl rbind. rewrite (Normalize_scalar out mnist_mean mnist_std_nonzero).
  eexists. split; [reflexivity|].
  apply tForall2_tmap_r. apply tForall2_tmap_l_inv in H.
  revert H. apply tForall2_impl. intros x o [B _].
  apply renorm_close;
    [exact mnist_std_nonzero | exact mnist_std_inv_nonneg | exact B].
Qed.

(** The examples kept are made of samples of the loader whose label was
    predicted at first, and their images have their pixels in [0, 1]. *)
Lemma test_loop_examples epsilon l st log st' log' :
  Forall (fun e : AdvExample =>
            Forall in_unit (snd (snd e)) /\
            exists s, In s l /\ fst (fst e) = target s) (snd st) ->
  test_loop epsilon l st log = (Ok st', log') ->
  Forall (fun e : AdvExample =>
            Forall in_unit (snd (snd e)) /\
            exists s, In s l /\ fst (fst e) = target s) (snd st').
Proof.
  intros Hst.
  apply (test_loop_invariant model input_grad
           (fun st => Forall (fun e : AdvExample =>
                                Forall in_unit (snd (snd e)) /\
                                exists s, In s l /\ fst (fst e) = target s)
                        (snd st))); [|exact Hst].
  clear. intros [c ex] s [c' ex'] w Hin Hex.
  rewrite test_body_eq. cbn [snd] in *.
  destruct (predict (data s)) as [ip|e] eqn:Ep; [|discriminate].
  destruct (ip =? target s) eqn:Eip; simpl negb; cbv iota.
  2: { intros [= _ <- _]. exact Hex. }
  apply Nat.eqb_eq in Eip.
  destruct (perturbed epsilon s) as [pd|e] eqn:Epd; [|discriminate].
  destruct (Normalize [mnist_mean] [mnist_std] pd) as [pn|e]; [|discriminate].
  destruct (predict pn) as [fp|e]; [|discriminate].
  assert (Hnew : Forall (fun e : AdvExample =>
                           Forall in_unit (snd (snd e)) /\
                           exists s, In s l /\ fst (fst e) = target s)
                   (ex ++ [(ip, fp, squeeze pd)])).
  { apply Forall_app. split; [exact Hex|]. constructor; [|constructor].
    split; [|exists s; auto]. simpl. apply tForall_flatten.
    unfold perturbed in Epd.
    destruct (denorm (data s) [mnist_mean] [mnist_std]) as [dd|e];
      [|discriminate].
    simpl rbind in Epd. exact (fgsm_attack_unit_out _ _ _ _ Epd). }
  destruct (fp =? target s).
  - destruct (Qc_eq_bool epsilon 0 && (length ex <? 5));
      intros [= _ <-]; assumption.
  - destruct (length ex <? 5); intros [= _ <-]; assumption.
Qed.
Section MoreWellFormed.
Hypothesis model_classes : forall x, model x <> [].
Hypothesis grad_shape : forall x t, same_shape x (input_grad x t).

(** The body appends the entry made of the sample when the sample is
    eligible and the list has fewer than 5 entries, and nothing else. *)
Lemma test_body_stores epsilon correct adv_examples s :
  exists e,
    stored_from epsilon s e /\
    test_body epsilon (correct, adv_examples) s
    = (Ok ((correct + if still_correct epsilon s then 1 else 0)%nat,
           if eligible epsilon s && (length adv_examples <? 5)
           then adv_examples ++ [e] else adv_examples),
       passes_of (init_correct s)).
Proof.
  destruct (predict_defined model model_classes (data s)) as [ip Ep].
  destruct (perturbed_defined input_grad grad_shape epsilon s) as [pd Epd].
  assert (En := Normalize_scalar pd mnist_mean mnist_std_nonzero).
  destruct (predict_defined model model_classes
              (tmap (fun x => (x - mnist_mean) / mnist_std) pd)) as [fp Efp].
  exists (ip, fp, squeeze pd). split.
  - unfold stored_from, attacked. cbn [fst snd].
    rewrite Ep, Epd. simpl rbind. rewrite En. simpl rbind. rewrite Efp. auto.
  - rewrite test_body_eq, Ep, Epd, En, Efp.
    unfold eligible, still_correct, init_correct, attacked, is_label.
    rewrite Ep, Epd. simpl rbind. rewrite En. simpl rbind. rewrite Efp.
    destruct (ip =? target s); simpl negb; simpl andb; cbv iota.
    + destruct (fp =? target s); destruct (Qc_eq_bool epsilon 0);
        destruct (length adv_examples <? 5); simpl;
        rewrite ?Nat.add_1_r, ?Nat.add_0_r; reflexivity.
    + rewrite Nat.add_0_r. reflexivity.
Qed.

(** The list kept by the loop is made, in order, of the first five
    eligible samples met. *)
Lemma test_loop_stores epsilon l :
  forall seen correct adv_examples log,
    Forall2 (stored_from epsilon) (firstn 5 seen) adv_examples ->
    exists correct' adv' log',
      test_loop epsilon l (correct, adv_examples) log
      = (Ok (correct', adv'), log') /\
      Forall2 (stored_from epsilon)
        (firstn 5 (seen ++ filter (eligible epsilon) l)) adv'.
Proof.
  induction l as [|s l IH]; intros seen c adv log Hadv.
  - exists c, adv, log. simpl. rewrite app_nil_r. auto.
  - rewrite test_loop_cons.
    destruct (test_body_stores epsilon c adv s) as (e & He & ->).
    assert (Hlen := Forall2_length Hadv). rewrite length_firstn in Hlen.
    cbn [filter]. destruct (eligible epsilon s); simpl andb.
    + replace (seen ++ s :: filter (eligible epsilon) l)
        with ((seen ++ [s]) ++ filter (eligible epsilon) l)
        by (rewrite <- app_assoc; reflexivity).
      apply IH. destruct (Nat.ltb_spec (length adv) 5) as [Hlt|Hge].
      * rewrite firstn_all2 in Hadv by lia.
        rewrite firstn_all2 by (rewrite length_app; simpl; lia).
        apply Forall2_app; [exact Hadv | constructor; [exact He|constructor]].
      * rewrite firstn_app.
        replace (5 - length seen)%nat with 0%nat by lia.
        simpl. rewrite app_nil_r. exact Hadv.
    + apply IH. exact Hadv.
Qed.

Lemma test_stores epsilon l :
  exists adv,
    test l epsilon
    = (rbind (final_acc (count_correct epsilon l) (length l))
         (fun acc => Ok (acc, adv)),
       map (fun s => (s, passes_of (init_correct s))) l) /\
    Forall2 (stored_from epsilon) (firstn 5 (filter (eligible epsilon) l)) adv.
Proof.
  destruct (test_loop_wf model input_grad model_classes grad_shape epsilon l
              0%nat [] []) as [adv E].
  destruct (test_loop_stores epsilon l [] 0%nat [] [] (Forall2_nil _))
    as (c' & adv' & log' & El & H).
  rewrite E in El. injection El as _ <- _.
  exists adv. split; [|exact H].
  unfold test. rewrite E. reflexivity.
Qed.

(** Eligible samples at [epsilon = 0] are the samples classified correctly
    at first; at another [epsilon] they are those the attack fools, which
    with the samples still correct make up the samples correct at first. *)
Lemma eligible_count epsilon l :
  (epsilon = 0 ->
   length (filter (eligible epsilon) l) = clean_correct model l) /\
  (epsilon <> 0 ->
   (count_correct epsilon l + length (filter (eligible epsilon) l)
    = clean_correct model l)%nat).
Proof.
  unfold clean_correct, count_correct, eligible, still_correct. split.
  - intros ->. apply filter_length_ext_in. intros s _.
    replace (Qc_eq_bool 0 0) with true
      by (unfold Qc_eq_bool; destruct (Qc_eq_dec 0 0); congruence).
    simpl. apply andb_true_r.
  - intros Hne. rewrite (Qc_eq_bool_false Hne).
    induction l as [|s l IH]; [reflexivity|].
    cbn [filter orb]. cbn [filter orb] in IH.
    destruct (init_correct s); simpl;
      [destruct (is_label _ _); simpl|]; lia.
Qed.
End MoreWellFormed.
End MoreTestFacts.

Lemma attacked_near_witness :
  exists t,
    attacked notch_net_grad (Q2Qc (1 # 10)) sample_a = Ok t /\
    tForall2 (fun x y => Qcabs.Qcabs (y - x) <= Q2Qc (1 # 10) / mnist_std)
      (data sample_a) t.
Proof.
  apply (attacked_near notch_net_grad (Q2Qc (1 # 10)) sample_a).
  - apply one_pixel_in_range. in_unit_compute.
  - vm_compute. discriminate.
  - apply notch_grad_shape.
Defined.

(** On an empty test set [test] raises [ZeroDivisionError]; with a
    network that scores a class and a gradient of the shape of its image
    that is the only way it raises. *)
Theorem test_raises_only_on_empty model input_grad epsilon :
  (forall x, model x <> []) ->
  (forall x t, same_shape x (input_grad x t)) ->
  test model input_grad [] epsilon = (Raise ZeroDivisionError, []) /\
  (forall test_loader e,
      fst (test model input_grad test_loader epsilon) = Raise e ->
      test_loader = [] /\ e = ZeroDivisionError).
Proof.
  intros Hm Hg. split; [reflexivity|]. intros l e.
  destruct (test_wf model input_grad Hm Hg epsilon l) as [adv ->].
  cbn [fst]. destruct l as [|s l].
  - simpl. intros [= <-]. auto.
  - rewrite final_acc_nonempty by discriminate. discriminate.
Qed.

Lemma test_raises_only_on_empty_witness :
  test notch_net notch_net_grad [] (Q2Qc (1 # 10))
  = (Raise ZeroDivisionError, []) /\
  (forall test_loader e,
      fst (test notch_net notch_net_grad test_loader (Q2Qc (1 # 10)))
      = Raise e ->
      test_loader = [] /\ e = ZeroDivisionError).
Proof.
  apply (test_raises_only_on_empty notch_net notch_net_grad (Q2Qc (1 # 10))).
  - intros x. apply notch_model_classes.
  - intros x t. apply notch_grad_shape.
Defined.

(** The examples [test] returns are made, in the order of the loader, of
    its first five eligible samples (all of them when there are fewer):
    each entry holds the prediction before the attack, the prediction
    after it and the perturbed image of its sample. *)
Theorem test_keeps_first_five model input_grad test_loader epsilon :
  (forall x, model x <> []) ->
  (forall x t, same_shape x (input_grad x t)) ->
  test_loader <> [] ->
  exists acc adv_examples log,
    test model input_grad test_loader epsilon = (Ok (acc, adv_examples), log) /\
    Forall2 (stored_from model input_grad epsilon)
      (firstn 5 (filter (eligible model input_grad epsilon) test_loader))
      adv_examples.
Proof.
  intros Hm Hg Hl.
  destruct (test_stores model input_grad Hm Hg epsilon test_loader)
    as (adv & -> & H).
  rewrite final_acc_nonempty
    by (intros E; apply length_zero_iff_nil in E; contradiction).
  eexists. eexists. eexists. split; [reflexivity | exact H].
Qed.

Lemma test_keeps_first_five_witness :
  exists acc adv_examples log,
    test notch_net notch_net_grad three_samples (Q2Qc (1 # 10))
    = (Ok (acc, adv_examples), log) /\
    Forall2 (stored_from notch_net notch_net_grad (Q2Qc (1 # 10)))
      (firstn 5 (filter (eligible notch_net notch_net_grad (Q2Qc (1 # 10)))
                   three_samples))
      adv_examples.
Proof.
  apply (test_keeps_first_five notch_net notch_net_grad three_samples
           (Q2Qc (1 # 10))).
  - intros x. apply notch_model_classes.
  - intros x t. apply notch_grad_shape.
  - discriminate.
Defined.

(** The number of examples [test] returns: at [epsilon = 0], the number
    of samples classified correctly, capped at 5; at another [epsilon],
    the number of samples the attack fools, that is the correct ones
    before the attack less the correct ones after it, capped at 5. *)
Theorem test_examples_count model input_grad test_loader epsilon :
  (forall x, model x <> []) ->
  (forall x t, same_shape x (input_grad x t)) ->
  test_loader <> [] ->
  exists acc adv_examples log,
    test model input_grad test_loader epsilon = (Ok (acc, adv_examples), log) /\
    (epsilon = 0 ->
     length adv_examples = Nat.min 5 (clean_correct model test_loader)) /\
    (epsilon <> 0 ->
     length adv_examples
     = Nat.min 5 (clean_correct model test_loader
                  - count_correct model input_grad epsilon test_loader)).
Proof.
  intros Hm Hg Hl.
  destruct (test_stores model input_grad Hm Hg epsilon test_loader)
    as (adv & -> & H).
  rewrite final_acc_nonempty
    by (intros E; apply length_zero_iff_nil in E; contradiction).
  eexists. eexists. eexists. split; [reflexivity|].
  apply Forall2_length in H. rewrite length_firstn in H.
  destruct (eligible_count model input_grad epsilon test_loader) as [E0 E1].
  split; intros He.
  - rewrite <- H, (E0 He). reflexivity.
  - rewrite <- H. specialize (E1 He). f_equal. lia.
Qed.

Lemma test_examples_count_witness :
  (exists acc adv_examples log,
      test notch_net notch_net_grad three_samples 0
      = (Ok (acc, adv_examples), log) /\
      length adv_examples = Nat.min 5 (clean_correct notch_net three_samples))
  /\
  (exists acc adv_examples log,
      test notch_net notch_net_grad three_samples (Q2Qc (1 # 10))
      = (Ok (acc, adv_examples), log) /\
      length adv_examples
      = Nat.min 5 (clean_correct notch_net three_samples
                   - count_correct notch_net notch_net_grad (Q2Qc (1 # 10))
                       three_samples)).
Proof.
  split.
  - destruct (test_examples_count notch_net notch_net_grad three_samples 0)
      as (acc & adv & log & E & H & _).
    + intros x. apply notch_model_classes.
    + intros x t. apply notch_grad_shape.
    + discriminate.
    + exists acc, adv, log. split; [exact E | apply H; reflexivity].
  - destruct (test_examples_count notch_net notch_net_grad three_samples
                (Q2Qc (1 # 10))) as (acc & adv & log & E & _ & H).
    + intros x. apply notch_model_classes.
    + intros x t. apply notch_grad_shape.
    + discriminate.
    + exists acc, adv, log. split; [exact E | apply H; Qc_nonzero].
Defined.

(** When the pixels, the gradient entries and [epsilon] are numbers (no
    NaN), whatever the network and the gradient are, every example [test]
    returns starts with the label of a sample of the loader, the one
    predicted before the attack, and holds an image with all its pixels in
    [0, 1]. *)
Theorem test_examples_in_unit model input_grad test_loader epsilon
    acc adv_examples log :
  test model input_grad test_loader epsilon = (Ok (acc, adv_examples), log) ->
  Forall (fun e : AdvExample =>
            Forall in_unit (snd (snd e)) /\
            exists s, In s test_loader /\ fst (fst e) = target s)
    adv_examples.
Proof.
  unfold test.
  destruct (test_loop model input_grad epsilon test_loader (0%nat, []) [])
    as [[[c adv]|e] log'] eqn:E; simpl rbind; [|discriminate].
  destruct (final_acc c (length test_loader)); simpl rbind; [|discriminate].
  intros [= _ <- _].
  apply (test_loop_examples model input_grad epsilon test_loader
           (0%nat, []) [] (c, adv) log'); [constructor | exact E].
Qed.

Lemma test_examples_in_unit_witness :
  exists acc adv_examples log,
    test edge_net edge_net_grad [sample_far] 0 = (Ok (acc, adv_examples), log) /\
    Forall (fun e : AdvExample =>
              Forall in_unit (snd (snd e)) /\
              exists s, In s [sample_far] /\ fst (fst e) = target s)
      adv_examples.
Proof.
  eexists. eexists. eexists. split; [vm_compute; reflexivity|].
  eapply (test_examples_in_unit edge_net edge_net_grad [sample_far] 0).
  vm_compute. reflexivity.
Defined.

(** ** The run over the epsilons *)

Section RunFacts.
Variable model : Tensor -> list Qc.
Variable input_grad : Tensor -> nat -> Tensor.
Variable test_loader : nat -> list Sample.
Variable dataset : list Sample.

Hypothesis model_classes : forall x, model x <> [].
Hypothesis grad_shape : forall x t, same_shape x (input_grad x t).
(** Every traversal of the loader hands over the samples of the test set,
    in some order. *)
Hypothesis shuffles : forall k, Permutation dataset (test_loader k).
Hypothesis dataset_nonempty : dataset <> [].

Lemma run_loop_spec eps_list :
  forall k accuracies examples,
  exists new,
    run_loop model input_grad test_loader eps_list k accuracies examples
    = Ok (accuracies
          ++ map (fun eps =>
                    Q2Qc (Z.of_nat (count_correct model input_grad eps dataset)
                          # Pos.of_nat (length dataset))) eps_list,
          examples ++ new) /\
    Forall2 (fun eps (ex : list AdvExample) =>
               length ex
               = Nat.min 5 (length (filter (eligible model input_grad eps)
                                      dataset))) eps_list new.
Proof.
  induction eps_list as [|eps rest IH]; intros k accs exs.
  - exists []. simpl. rewrite !app_nil_r. auto.
  - cbn [run_loop].
    destruct (test_stores model input_grad model_classes grad_shape eps
                (test_loader k)) as (adv & -> & Hadv).
    cbn [fst]. unfold count_correct.
    rewrite <- (filter_length_Permutation _ _ _ (shuffles k)).
    rewrite <- (Permutation_length (shuffles k)).
    rewrite final_acc_nonempty
      by (intros E; apply length_zero_iff_nil in E; contradiction).
    simpl rbind.
    destruct (IH (S k)
                (accs ++ [Q2Qc (Z.of_nat
                                  (length (filter
                                             (still_correct model input_grad eps)
                                             dataset))
                                # Pos.of_nat (length dataset))])
                (exs ++ [adv])) as (new & -> & Hnew).
    exists (adv :: new). rewrite <- !app_assoc. simpl.
    split; [reflexivity|].
    constructor; [|exact Hnew].
    apply Forall2_length in Hadv. rewrite <- Hadv, length_firstn.
    rewrite (filter_length_Permutation _ _ _ (shuffles k)). reflexivity.
Qed.
End RunFacts.

Lemma Forall2_min_le {A B} (f : A -> nat) (xs : list A) (ys : list (list B)) :
  Forall2 (fun x (y : list B) => length y = Nat.min 5 (f x)) xs ys ->
  Forall (fun y : list B => (length y <= 5)%nat) ys.
Proof.
  induction 1 as [|x y xs ys Hxy _ IH]; constructor; [lia | exact IH].
Qed.

(** The run returns one accuracy and one list of examples for each
    epsilon, in the order of [epsilons]; the accuracy for an epsilon is the
    fraction of the test set still classified correctly at that epsilon,
    whatever the orders the shuffling loader hands the samples over in; the
    list of examples of an epsilon has as many entries as the test set has
    samples eligible at that epsilon, up to 5, so never more than 5. *)
Theorem run_attack_aligned model input_grad test_loader dataset eps_list :
  (forall x, model x <> []) ->
  (forall x t, same_shape x (input_grad x t)) ->
  (forall k, Permutation dataset (test_loader k)) ->
  dataset <> [] ->
  exists accuracies examples,
    run_attack model input_grad test_loader eps_list
    = Ok (accuracies, examples) /\
    accuracies
    = map (fun eps =>
             Q2Qc (Z.of_nat (count_correct model input_grad eps dataset)
                   # Pos.of_nat (length dataset))) eps_list /\
    length examples = length eps_list /\
    Forall2 (fun eps (ex : list AdvExample) =>
               length ex
               = Nat.min 5 (length (filter (eligible model input_grad eps)
                                      dataset)))
      eps_list examples /\
    Forall (fun ex : list AdvExample => (length ex <= 5)%nat) examples.
Proof.
  intros Hm Hg Hp Hd. unfold run_attack.
  destruct (run_loop_spec model input_grad test_loader dataset Hm Hg Hp Hd
              eps_list 0%nat [] []) as (new & E & Hnew).
  simpl in E. eexists. eexists. split; [exact E|].
  split; [reflexivity|]. split; [|split].
  - symmetry. exact (Forall2_length Hnew).
  - exact Hnew.
  - exact (Forall2_min_le _ _ _ Hnew).
Qed.

Lemma shuffling_loader_shuffles k : Permutation three_samples (shuffling_loader k).
Proof.
  unfold shuffling_loader, three_samples. destruct (Nat.even k).
  - apply Permutation_refl.
  - apply Permutation_sym.
    apply (Permutation_cons_app [sample_a; sample_w] [] sample_b).
    apply Permutation_refl.
Qed.

Lemma run_attack_aligned_witness :
  exists accuracies examples,
    run_attack notch_net notch_net_grad shuffling_loader epsilons
    = Ok (accuracies, examples) /\
    accuracies
    = map (fun eps =>
             Q2Qc (Z.of_nat (count_correct notch_net notch_net_grad eps
                               three_samples)
                   # Pos.of_nat (length three_samples))) epsilons /\
    length examples = length epsilons /\
    Forall2 (fun eps (ex : list AdvExample) =>
               length ex
               = Nat.min 5 (length (filter (eligible notch_net notch_net_grad
                                              eps) three_samples)))
      epsilons examples /\
    Forall (fun ex : list AdvExample => (length ex <= 5)%nat) examples.
Proof.
  apply (run_attack_aligned notch_net notch_net_grad shuffling_loader
           three_samples epsilons).
  - intros x. apply notch_model_classes.
  - intros x t. apply notch_grad_shape.
  - exact shuffling_loader_shuffles.
  - discriminate.
Defined.

(** ** The plot of the examples *)

Lemma combine_app_same {A B} (xs xs' : list A) (ys ys' : list B) :
  length xs = length ys ->
  combine (xs ++ xs') (ys ++ ys') = combine xs ys ++ combine xs' ys'.
Proof.
  revert ys. induction xs as [|x xs IH]; intros [|y ys] E; try discriminate;
    simpl; [reflexivity|].
  rewrite IH by (simpl in E; congruence). reflexivity.
Qed.

Lemma number_from_app r c cnt xs ys :
  number_from r c cnt (xs ++ ys)
  = number_from r c cnt xs ++ number_from r c (cnt + length xs) ys.
Proof.
  unfold number_from. rewrite length_app, seq_app.
  rewrite combine_app_same by (rewrite length_seq; reflexivity).
  rewrite map_app. reflexivity.
Qed.

Lemma number_from_length r c cnt xs : length (number_from r c cnt xs) = length xs.
Proof.
  unfold number_from. rewrite length_map, length_combine, length_seq.
  apply Nat.min_id.
Qed.

Lemma row_items_length j0 eps row : length (row_items j0 eps row) = length row.
Proof.
  unfold row_items. rewrite length_map, length_combine, length_seq.
  apply Nat.min_id.
Qed.

Lemma number_from_cons r c cnt x xs :
  number_from r c cnt (x :: xs)
  = mk_subplot r c (S cnt) (fst x) (fst (snd x)) (snd (snd x))
    :: number_from r c (S cnt) xs.
Proof. reflexivity. Qed.

Lemma row_items_cons j0 eps e row :
  row_items j0 eps (e :: row)
  = (if j0 =? 0 then Some eps else None, e) :: row_items (S j0) eps row.
Proof. reflexivity. Qed.

(** The inner loop, from column [length prefix] on. *)
Lemma plot_inner eps_list examples i eps row first :
  nth_error examples 0 = Some first ->
  nth_error eps_list i = Some eps ->
  nth_error examples i = Some row ->
  forall suffix prefix cnt calls,
    row = prefix ++ suffix ->
    for_range (plot_cell eps_list examples i)
      (seq (length prefix) (length suffix)) (cnt, calls)
    = Some ((cnt + length suffix)%nat,
            calls ++ number_from (length eps_list) (length first) cnt
                       (row_items (length prefix) eps suffix)).
Proof.
  intros Hfirst Heps Hrow.
  induction suffix as [|e suffix IH]; intros prefix cnt calls E.
  - simpl. rewrite Nat.add_0_r, app_nil_r. reflexivity.
  - cbn [length seq for_range]. unfold plot_cell at 1.
    rewrite Hfirst, Hrow.
    assert (He : nth_error row (length prefix) = Some e)
      by (rewrite E, nth_error_app2, Nat.sub_diag by lia; reflexivity).
    rewrite He.
    assert (Hlabel : (if length prefix =? 0
                      then option_map Some (nth_error eps_list i)
                      else Some None)
                     = Some (if length prefix =? 0 then Some eps else None))
      by (rewrite Heps; destruct (length prefix =? 0); reflexivity).
    rewrite Hlabel. destruct e as [[orig adv] ex]. cbn [fst snd].
    replace (S (length prefix)) with (length (prefix ++ [(orig, adv, ex)]))
      by (rewrite length_app; simpl; lia).
    rewrite IH by (rewrite <- app_assoc; exact E).
    rewrite length_app. cbn [length].
    rewrite Nat.add_1_r, row_items_cons, number_from_cons, <- app_assoc.
    cbn [fst snd app]. f_equal. f_equal. lia.
Qed.

(** The outer loop, from row [length eps_prefix] on: it raises when the
    rows of examples run out before the epsilons do. *)
Lemma plot_outer eps_list examples :
  forall eps_suffix eps_prefix ex_suffix ex_prefix cnt calls,
    eps_list = eps_prefix ++ eps_suffix ->
    examples = ex_prefix ++ ex_suffix ->
    length ex_prefix = length eps_prefix ->
    for_range (plot_row eps_list examples)
      (seq (length eps_prefix) (length eps_suffix)) (cnt, calls)
    = if length eps_suffix <=? length ex_suffix
      then Some ((cnt + length (concat (map2 (row_items 0) eps_suffix ex_suffix)))%nat,
                 calls ++ number_from (length eps_list)
                            (length (hd [] examples)) cnt
                            (concat (map2 (row_items 0) eps_suffix ex_suffix)))
      else None.
Proof.
  induction eps_suffix as [|eps eps_suffix IH];
    intros eps_prefix ex_suffix ex_prefix cnt calls Ee Ex Hlen.
  - simpl. rewrite Nat.add_0_r, app_nil_r. reflexivity.
  - cbn [length seq for_range]. unfold plot_row at 1.
    destruct ex_suffix as [|row ex_suffix].
    + assert (Hnone : nth_error examples (length eps_prefix) = None)
        by (apply nth_error_None; rewrite Ex, app_nil_r; lia).
      rewrite Hnone. reflexivity.
    + assert (Hrow : nth_error examples (length eps_prefix) = Some row)
        by (rewrite Ex, nth_error_app2, <- Hlen, Nat.sub_diag by lia;
            reflexivity).
      assert (Hfirst : nth_error examples 0 = Some (hd [] examples))
        by (destruct examples; [destruct ex_prefix; discriminate Ex
                               | reflexivity]).
      assert (Heps : nth_error eps_list (length eps_prefix) = Some eps)
        by (rewrite Ee, nth_error_app2, Nat.sub_diag by lia; reflexivity).
      rewrite Hrow.
      assert (Hin := plot_inner eps_list examples (length eps_prefix) eps row
                       (hd [] examples) Hfirst Heps Hrow row [] cnt calls
                       eq_refl).
      change (length (@nil AdvExample)) with 0%nat in Hin. rewrite Hin.
      replace (S (length eps_prefix)) with (length (eps_prefix ++ [eps]))
        by (rewrite length_app; simpl; lia).
      rewrite (IH (eps_prefix ++ [eps]) ex_suffix (ex_prefix ++ [row]))
        by (rewrite <- ?app_assoc, ?length_app; simpl; congruence).
      cbn [length]. change (S (length eps_suffix) <=? S (length ex_suffix))
        with (length eps_suffix <=? length ex_suffix).
      destruct (length eps_suffix <=? length ex_suffix); [|reflexivity].
      change (map2 (row_items 0) (eps :: eps_suffix) (row :: ex_suffix))
        with (row_items 0 eps row :: map2 (row_items 0) eps_suffix ex_suffix).
      cbn [concat]. rewrite number_from_app, length_app, row_items_length.
      rewrite <- app_assoc. f_equal. f_equal. lia.
Qed.

Lemma plot_examples_eq eps_list examples :
  plot_examples eps_list examples
  = if length eps_list <=? length examples
    then Some (plot_calls eps_list examples) else None.
Proof.
  unfold plot_examples, plot_calls.
  assert (H := plot_outer eps_list examples eps_list [] examples [] 0%nat []
                 eq_refl eq_refl eq_refl).
  change (length (@nil Qc)) with 0%nat in H. rewrite H.
  destruct (length eps_list <=? length examples); reflexivity.
Qed.

Lemma map_fst_combine_seq {A} (start : nat) (l : list A) :
  map fst (combine (seq start (length l)) l) = seq start (length l).
Proof.
  revert start. induction l as [|x l IH]; intros start; simpl; [reflexivity|].
  rewrite IH. reflexivity.
Qed.

Lemma map_snd_combine_seq {A} (start : nat) (l : list A) :
  map snd (combine (seq start (length l)) l) = l.
Proof.
  revert start. induction l as [|x l IH]; intros start; simpl; [reflexivity|].
  rewrite IH. reflexivity.
Qed.

Lemma number_from_index r c cnt items :
  map index (number_from r c cnt items) = seq (S cnt) (length items).
Proof.
  unfold number_from. rewrite map_map. cbn [index].
  apply map_fst_combine_seq.
Qed.

Lemma number_from_content r c cnt items :
  map (fun call => (title call, shown call)) (number_from r c cnt items)
  = map snd items.
Proof.
  revert cnt. induction items as [|[label [t ex]] items IH]; intros cnt;
    [reflexivity|].
  rewrite number_from_cons. cbn [map title shown fst snd].
  rewrite IH. reflexivity.
Qed.

Lemma number_from_dims r c cnt items :
  Forall (fun call => nrows call = r /\ ncols call = c)
    (number_from r c cnt items).
Proof.
  unfold number_from. apply Forall_map, Forall_forall. intros p _. auto.
Qed.

Lemma row_items_content j0 eps row : map snd (row_items j0 eps row) = row.
Proof.
  unfold row_items. rewrite map_map. cbn [snd]. apply map_snd_combine_seq.
Qed.

Lemma items_content (eps_list : list Qc) (examples : list (list AdvExample)) :
  length examples = length eps_list ->
  map snd (concat (map2 (row_items 0) eps_list examples)) = concat examples.
Proof.
  revert examples. induction eps_list as [|eps eps_list IH];
    intros [|row examples] E; try discriminate; [reflexivity|].
  change (map2 (row_items 0) (eps :: eps_list) (row :: examples))
    with (row_items 0 eps row :: map2 (row_items 0) eps_list examples).
  cbn [concat]. rewrite map_app, row_items_content, IH
    by (simpl in E; congruence).
  reflexivity.
Qed.

Lemma items_length eps_list :
  forall examples,
    (length examples <= length eps_list)%nat ->
    length (concat (map2 (row_items 0) eps_list examples))
    = length (concat examples).
Proof.
  induction eps_list as [|eps eps_list IH]; intros [|row examples] E;
    try reflexivity; [simpl in E; lia|].
  change (map2 (row_items 0) (eps :: eps_list) (row :: examples))
    with (row_items 0 eps row :: map2 (row_items 0) eps_list examples).
  cbn [concat]. rewrite !length_app, row_items_length, IH
    by (simpl in E; lia).
  reflexivity.
Qed.

(** The inner loop with the checks of the library, from column
    [length prefix] on. *)
Lemma plot_inner_checked imshow_ok eps_list examples i eps row first :
  nth_error examples 0 = Some first ->
  nth_error eps_list i = Some eps ->
  nth_error examples i = Some row ->
  forall suffix prefix cnt calls,
    row = prefix ++ suffix ->
    Forall (fun e : AdvExample => imshow_ok (snd e) = true) suffix ->
    (cnt <= length eps_list * length first)%nat ->
    for_range_checked (plot_cell_checked imshow_ok eps_list examples i)
      (seq (length prefix) (length suffix)) (cnt, calls)
    = if cnt + length suffix <=? length eps_list * length first
      then inl ((cnt + length suffix)%nat,
                calls ++ number_from (length eps_list) (length first) cnt
                           (row_items (length prefix) eps suffix))
      else inr PlotValueError.
Proof.
  intros Hfirst Heps Hrow.
  induction suffix as [|e suffix IH]; intros prefix cnt calls E Hok Hcnt.
  - simpl. rewrite Nat.add_0_r, app_nil_r.
    destruct (Nat.leb_spec cnt (length eps_list * length first));
      [reflexivity | lia].
  - cbn [length seq for_range_checked]. unfold plot_cell_checked at 1.
    rewrite Hfirst. cbn [fst snd]. unfold subplot_ok.
    change (1 <=? S cnt) with true. cbn [andb].
    destruct (Nat.leb_spec (S cnt) (length eps_list * length first))
      as [Hin|Hout]; cbn [negb].
    2: { destruct (Nat.leb_spec (cnt + S (length suffix))
                     (length eps_list * length first)); [lia | reflexivity]. }
    rewrite Hrow.
    assert (He : nth_error row (length prefix) = Some e)
      by (rewrite E, nth_error_app2, Nat.sub_diag by lia; reflexivity).
    rewrite He.
    assert (Hlabel : (if length prefix =? 0
                      then option_map Some (nth_error eps_list i)
                      else Some None)
                     = Some (if length prefix =? 0 then Some eps else None))
      by (rewrite Heps; destruct (length prefix =? 0); reflexivity).
    rewrite Hlabel. destruct e as [[orig adv] ex].
    rewrite (Forall_inv Hok : imshow_ok ex = true).
    replace (S (length prefix)) with (length (prefix ++ [(orig, adv, ex)]))
      by (rewrite length_app; simpl; lia).
    rewrite IH
      by (rewrite <- ?app_assoc;
          first [exact E | exact (Forall_inv_tail Hok) | exact Hin]).
    replace (S cnt + length suffix)%nat with (cnt + S (length suffix))%nat
      by lia.
    destruct (cnt + S (length suffix) <=? length eps_list * length first);
      [|reflexivity].
    rewrite length_app. cbn [length].
    rewrite Nat.add_1_r, row_items_cons, number_from_cons, <- app_assoc.
    reflexivity.
Qed.

(** The outer loop with the checks of the library, from row
    [length eps_prefix] on. *)
Lemma plot_outer_checked imshow_ok eps_list examples :
  forall eps_suffix eps_prefix ex_suffix ex_prefix cnt calls,
    eps_list = eps_prefix ++ eps_suffix ->
    examples = ex_prefix ++ ex_suffix ->
    length ex_prefix = length eps_prefix ->
    Forall (Forall (fun e : AdvExample => imshow_ok (snd e) = true))
      ex_suffix ->
    (cnt <= length eps_list * length (hd [] examples))%nat ->
    for_range_checked (plot_row_checked imshow_ok eps_list examples)
      (seq (length eps_prefix) (length eps_suffix)) (cnt, calls)
    = if cnt + length (concat (map2 (row_items 0) eps_suffix ex_suffix))
         <=? length eps_list * length (hd [] examples)
      then
        if length eps_suffix <=? length ex_suffix
        then inl ((cnt + length (concat (map2 (row_items 0) eps_suffix
                                           ex_suffix)))%nat,
                  calls ++ number_from (length eps_list)
                             (length (hd [] examples)) cnt
                             (concat (map2 (row_items 0) eps_suffix ex_suffix)))
        else inr PlotIndexError
      else inr PlotValueError.
Proof.
  induction eps_suffix as [|eps eps_suffix IH];
    intros eps_prefix ex_suffix ex_prefix cnt calls Ee Ex Hlen Hok Hcnt.
  - simpl. rewrite Nat.add_0_r, app_nil_r.
    destruct (Nat.leb_spec cnt (length eps_list * length (hd [] examples)));
      [reflexivity | lia].
  - cbn [length seq for_range_checked]. unfold plot_row_checked at 1.
    destruct ex_suffix as [|row ex_suffix].
    + assert (Hnone : nth_error examples (length eps_prefix) = None)
        by (apply nth_error_None; rewrite Ex, app_nil_r; lia).
      rewrite Hnone. cbn [map2 combine map concat length].
      rewrite Nat.add_0_r.
      destruct (Nat.leb_spec cnt (length eps_list * length (hd [] examples)));
        [reflexivity | lia].
    + assert (Hrow : nth_error examples (length eps_prefix) = Some row)
        by (rewrite Ex, nth_error_app2, <- Hlen, Nat.sub_diag by lia;
            reflexivity).
      assert (Hfirst : nth_error examples 0 = Some (hd [] examples))
        by (destruct examples; [destruct ex_prefix; discriminate Ex
                               | reflexivity]).
      assert (Heps : nth_error eps_list (length eps_prefix) = Some eps)
        by (rewrite Ee, nth_error_app2, Nat.sub_diag by lia; reflexivity).
      rewrite Hrow.
      assert (Hin := plot_inner_checked imshow_ok eps_list examples
                       (length eps_prefix) eps row (hd [] examples)
                       Hfirst Heps Hrow row [] cnt calls eq_refl
                       (Forall_inv Hok) Hcnt).
      change (length (@nil AdvExample)) with 0%nat in Hin. rewrite Hin.
      change (map2 (row_items 0) (eps :: eps_suffix) (row :: ex_suffix))
        with (row_items 0 eps row :: map2 (row_items 0) eps_suffix ex_suffix).
      cbn [concat]. rewrite length_app, row_items_length.
      destruct (Nat.leb_spec (cnt + length row)
                  (length eps_list * length (hd [] examples))) as [Hfit|Hout].
      2: { destruct (Nat.leb_spec
                       (cnt + (length row
                               + length (concat (map2 (row_items 0) eps_suffix
                                                   ex_suffix))))
                       (length eps_list * length (hd [] examples)));
             [lia | reflexivity]. }
      replace (S (length eps_prefix)) with (length (eps_prefix ++ [eps]))
        by (rewrite length_app; simpl; lia).
      rewrite (IH (eps_prefix ++ [eps]) ex_suffix (ex_prefix ++ [row]))
        by (rewrite <- ?app_assoc, ?length_app; simpl;
            first [congruence | exact (Forall_inv_tail Hok) | exact Hfit]).
      rewrite Nat.add_assoc.
      destruct (cnt + length row
                + length (concat (map2 (row_items 0) eps_suffix ex_suffix))
                <=? length eps_list * length (hd [] examples));
        [|reflexivity].
      cbn [length]. change (S (length eps_suffix) <=? S (length ex_suffix))
        with (length eps_suffix <=? length ex_suffix).
      destruct (length eps_suffix <=? length ex_suffix); [|reflexivity].
      rewrite number_from_app, row_items_length, <- app_assoc. reflexivity.
Qed.

Lemma plot_examples_checked_eq imshow_ok eps_list examples :
  Forall (Forall (fun e : AdvExample => imshow_ok (snd e) = true)) examples ->
  plot_examples_checked imshow_ok eps_list examples
  = if length (concat (map2 (row_items 0) eps_list examples))
       <=? length eps_list * length (hd [] examples)
    then
      if length eps_list <=? length examples
      then inl (plot_calls eps_list examples)
      else inr PlotIndexError
    else inr PlotValueError.
Proof.
  intros Hok. unfold plot_examples_checked, plot_calls.
  assert (H := plot_outer_checked imshow_ok eps_list examples eps_list []
                 examples [] 0%nat [] eq_refl eq_refl eq_refl Hok
                 (Nat.le_0_l _)).
  change (length (@nil Qc)) with 0%nat in H. rewrite H. cbn [Nat.add].
  destruct (_ <=? length eps_list * _); [|reflexivity].
  destruct (length eps_list <=? length examples); reflexivity.
Qed.

(** The plotting cell with the errors of the library, for pictures
    [plt.imshow] takes and at most one list of examples for each epsilon.
    When the examples are more than the [len(epsilons)] times
    [len(examples[0])] places of the grid, [plt.subplot] raises
    [ValueError].  Otherwise the cell raises [IndexError] when the lists
    are fewer than the epsilons, and with one list for each epsilon it
    draws every example once, list after list and each list in its order,
    numbering the subplots 1, 2, 3, ... without a gap, on a grid of
    [len(epsilons)] rows and [len(examples[0])] columns, with the
    predictions of the example as title and its image as picture: the
    calls of [plot_examples]. *)
Theorem plot_examples_numbering imshow_ok eps_list examples :
  Forall (Forall (fun e : AdvExample => imshow_ok (snd e) = true)) examples ->
  (length examples <= length eps_list)%nat ->
  ((length eps_list * length (hd [] examples) < length (concat examples))%nat ->
   plot_examples_checked imshow_ok eps_list examples = inr PlotValueError) /\
  ((length (concat examples) <= length eps_list * length (hd [] examples))%nat ->
   ((length examples < length eps_list)%nat ->
    plot_examples_checked imshow_ok eps_list examples = inr PlotIndexError) /\
   (length examples = length eps_list ->
    exists calls,
      plot_examples_checked imshow_ok eps_list examples = inl calls /\
      plot_examples eps_list examples = Some calls /\
      map index calls = seq 1 (length (concat examples)) /\
      map (fun call => (title call, shown call)) calls = concat examples /\
      Forall (fun call => nrows call = length eps_list /\
                          ncols call = length (hd [] examples)) calls)).
Proof.
  intros Hok Hle.
  rewrite (plot_examples_checked_eq _ _ _ Hok), (items_length _ _ Hle).
  split; [|split].
  - intros H.
    destruct (Nat.leb_spec (length (concat examples))
                (length eps_list * length (hd [] examples)));
      [lia | reflexivity].
  - intros Hlt.
    destruct (Nat.leb_spec (length (concat examples))
                (length eps_list * length (hd [] examples))); [|lia].
    destruct (Nat.leb_spec (length eps_list) (length examples));
      [lia | reflexivity].
  - intros E.
    destruct (Nat.leb_spec (length (concat examples))
                (length eps_list * length (hd [] examples))); [|lia].
    rewrite plot_examples_eq, E, Nat.leb_refl.
    eexists. split; [reflexivity|]. split; [reflexivity|].
    unfold plot_calls. split; [|split].
    + rewrite number_from_index. f_equal.
      rewrite <- (length_map snd), (items_content eps_list examples E).
      reflexivity.
    + rewrite number_from_content. apply items_content, E.
    + apply number_from_dims.
Qed.

Lemma image_rows_shown :
  Forall (Forall (fun e : AdvExample => two_dimensions (snd e) = true))
    image_rows.
Proof. repeat constructor. Qed.

Lemma long_rows_shown :
  Forall (Forall (fun e : AdvExample => two_dimensions (snd e) = true))
    long_rows.
Proof. repeat constructor. Qed.

Lemma plot_examples_numbering_witness :
  plot_examples_checked two_dimensions two_epsilons long_rows
  = inr PlotValueError /\
  plot_examples_checked two_dimensions two_epsilons [hd [] image_rows]
  = inr PlotIndexError /\
  exists calls,
    plot_examples_checked two_dimensions two_epsilons image_rows = inl calls /\
    plot_examples two_epsilons image_rows = Some calls /\
    map index calls = seq 1 (length (concat image_rows)) /\
    map (fun call => (title call, shown call)) calls = concat image_rows /\
    Forall (fun call => nrows call = length two_epsilons /\
                        ncols call = length (hd [] image_rows)) calls.
Proof.
  split; [|split].
  - apply (plot_examples_numbering two_dimensions two_epsilons long_rows).
    + exact long_rows_shown.
    + simpl. lia.
    + simpl. lia.
  - apply (plot_examples_numbering two_dimensions two_epsilons
             [hd [] image_rows]).
    + repeat constructor.
    + simpl. lia.
    + simpl. lia.
    + simpl. lia.
  - apply (plot_examples_numbering two_dimensions two_epsilons image_rows).
    + exact image_rows_shown.
    + simpl. lia.
    + simpl. lia.
    + reflexivity.
Defined.

Lemma nth_error_number_from r c cnt items n it :
  nth_error items n = Some it ->
  nth_error (number_from r c cnt items) n
  = Some (mk_subplot r c (S (cnt + n)) (fst it) (fst (snd it)) (snd (snd it))).
Proof.
  revert cnt n. induction items as [|x items IH]; intros cnt [|n] H;
    try discriminate; rewrite number_from_cons; simpl in *.
  - injection H as ->. rewrite Nat.add_0_r. reflexivity.
  - rewrite (IH (S cnt) n H). do 2 f_equal. lia.
Qed.

Lemma nth_error_row_items j0 eps row j e :
  nth_error row j = Some e ->
  nth_error (row_items j0 eps row) j
  = Some (if j0 + j =? 0 then Some eps else None, e).
Proof.
  revert j0 j. induction row as [|x row IH]; intros j0 [|j] H; try discriminate;
    rewrite row_items_cons; simpl in *.
  - injection H as ->. rewrite Nat.add_0_r. reflexivity.
  - rewrite (IH (S j0) j H).
    replace (j0 + S j)%nat with (S j0 + j)%nat by lia. reflexivity.
Qed.

Lemma nth_error_map2 {A B C} (f : A -> B -> C) xs ys i x y :
  nth_error xs i = Some x -> nth_error ys i = Some y ->
  nth_error (map2 f xs ys) i = Some (f x y).
Proof.
  revert ys i. induction xs as [|x0 xs IH]; intros [|y0 ys] [|i] Hx Hy;
    try discriminate; simpl in *.
  - congruence.
  - apply IH; assumption.
Qed.

Lemma nth_error_concat_uniform {A} (k : nat) (ll : list (list A)) i j l :
  Forall (fun l => length l = k) ll ->
  nth_error ll i = Some l -> (j < k)%nat ->
  nth_error (concat ll) (i * k + j) = nth_error l j.
Proof.
  intros Hk. revert i. induction Hk as [|l0 ll Hl0 _ IH]; intros [|i] Hi Hj;
    try discriminate; simpl in *.
  - injection Hi as ->. apply nth_error_app1. lia.
  - rewrite nth_error_app2 by lia.
    replace (k + i * k + j - length l0)%nat with (i * k + j)%nat by lia.
    apply IH; assumption.
Qed.

Lemma map2_row_items_uniform k (eps_list : list Qc)
    (examples : list (list AdvExample)) :
  Forall (fun row => length row = k) examples ->
  Forall (fun l => length l = k) (map2 (row_items 0) eps_list examples).
Proof.
  intros H. revert eps_list.
  induction H as [|row examples Hrow _ IH]; intros [|eps eps_list];
    try (constructor; fail).
  change (map2 (row_items 0) (eps :: eps_list) (row :: examples))
    with (row_items 0 eps row :: map2 (row_items 0) eps_list examples).
  constructor; [rewrite row_items_length; exact Hrow | apply IH].
Qed.

(** When every epsilon has the same number [k] of examples, example [j]
    of epsilon [i] is drawn in subplot [i * k + j + 1] of a grid of [k]
    columns, which is column [j] of row [i]: every epsilon has a row of
    its own, labelled with the epsilon at its first picture. *)
Theorem plot_examples_grid eps_list examples k i j eps row e :
  length examples = length eps_list ->
  Forall (fun row => length row = k) examples ->
  nth_error eps_list i = Some eps ->
  nth_error examples i = Some row ->
  nth_error row j = Some e ->
  exists calls,
    plot_examples eps_list examples = Some calls /\
    nth_error calls (i * k + j)
    = Some (mk_subplot (length eps_list) k (i * k + j + 1)
              (if j =? 0 then Some eps else None) (fst e) (snd e)).
Proof.
  intros E Hk Heps Hrow He.
  rewrite plot_examples_eq, E, Nat.leb_refl.
  eexists. split; [reflexivity|]. unfold plot_calls.
  assert (Hj : (j < k)%nat).
  { rewrite Forall_forall in Hk.
    rewrite <- (Hk row (nth_error_In _ _ Hrow)).
    apply nth_error_Some. rewrite He. discriminate. }
  assert (Hcols : length (hd [] examples) = k).
  { destruct examples as [|row0 examples]; [destruct i; discriminate|].
    exact (Forall_inv Hk). }
  rewrite Hcols.
  rewrite (nth_error_number_from _ _ _ _ _
             (if j =? 0 then Some eps else None, e)).
  - cbn [fst snd]. do 2 f_equal. lia.
  - rewrite (nth_error_concat_uniform k _ i j (row_items 0 eps row)).
    + apply (nth_error_row_items 0 eps row j e He).
    + apply map2_row_items_uniform, Hk.
    + apply nth_error_map2; assumption.
    + exact Hj.
Qed.

Lemma plot_examples_grid_witness :
  exists calls,
    plot_examples two_epsilons full_rows = Some calls /\
    nth_error calls (1 * 2 + 1)
    = Some (mk_subplot (length two_epsilons) 2 (1 * 2 + 1 + 1)
              (if 1 =? 0 then Some (Q2Qc (1 # 10)) else None)
              (fst (7, 1, picture (Q2Qc (3 # 4)))%nat)
              (snd (7, 1, picture (Q2Qc (3 # 4)))%nat)).
Proof.
  apply (plot_examples_grid two_epsilons full_rows 2 1 1 (Q2Qc (1 # 10))
           [(3, 8, picture (Q2Qc (2 # 5))); (7, 1, picture (Q2Qc (3 # 4)))]%nat
           (7, 1, picture (Q2Qc (3 # 4)))%nat).
  - reflexivity.
  - repeat constructor.
  - reflexivity.
  - reflexivity.
  - reflexivity.
Defined.

Lemma length_concat_le {A} (k : nat) (ll : list (list A)) :
  Forall (fun l => (length l <= k)%nat) ll ->
  (length (concat ll) <= length ll * k)%nat.
Proof.
  induction 1 as [|l ll Hl _ IH]; simpl; [lia|].
  rewrite length_app. lia.
Qed.

(** When no epsilon has more examples than the first one, every subplot
    asked for lies on the grid: its number is at least 1 and at most
    [nrows * ncols]. *)
Theorem plot_examples_on_grid eps_list examples :
  length examples = length eps_list ->
  Forall (fun row : list AdvExample =>
            (length row <= length (hd [] examples))%nat) examples ->
  exists calls,
    plot_examples eps_list examples = Some calls /\
    Forall (fun call => (1 <= index call <= nrows call * ncols call)%nat) calls.
Proof.
  intros E Hk. rewrite plot_examples_eq, E, Nat.leb_refl.
  eexists. split; [reflexivity|]. unfold plot_calls.
  set (items := concat (map2 (row_items 0) eps_list examples)).
  assert (Hlen : (length items <= length eps_list * length (hd [] examples))%nat).
  { unfold items. rewrite <- (length_map snd), (items_content _ _ E), <- E.
    apply length_concat_le, Hk. }
  apply Forall_forall. intros call Hin.
  destruct (proj1 (Forall_forall _ _)
              (number_from_dims (length eps_list) (length (hd [] examples))
                 0 items) call Hin) as [-> ->].
  assert (Hidx : In (index call) (seq 1 (length items)))
    by (rewrite <- (number_from_index (length eps_list)
                      (length (hd [] examples)) 0 items);
        apply in_map, Hin).
  apply in_seq in Hidx. lia.
Qed.

Lemma plot_examples_on_grid_witness :
  exists calls,
    plot_examples two_epsilons short_rows = Some calls /\
    Forall (fun call => (1 <= index call <= nrows call * ncols call)%nat) calls.
Proof.
  apply (plot_examples_on_grid two_epsilons short_rows).
  - reflexivity.
  - repeat constructor.
Defined.

(** ** The run, then the plot *)

Lemma run_loop_lengths model input_grad test_loader eps_list :
  forall k accuracies examples accuracies' examples',
    run_loop model input_grad test_loader eps_list k accuracies examples
    = Ok (accuracies', examples') ->
    length accuracies' = (length accuracies + length eps_list)%nat /\
    length examples' = (length examples + length eps_list)%nat.
Proof.
  induction eps_list as [|eps rest IH]; intros k accs exs accs' exs'.
  - intros [= <- <-]. simpl. lia.
  - cbn [run_loop].
    destruct (fst (test model input_grad (test_loader k) eps))
      as [[acc ex]|e]; [|discriminate].
    intros H. apply IH in H. rewrite !length_app in H. simpl in *. lia.
Qed.

(** Whatever the network, the gradient and the loader are: when the run
    over the epsilons returns, it returns one accuracy and one list of
    examples for each epsilon, so the plotting loop that follows finds a
    list of examples for every epsilon and does not raise [IndexError]. *)
Theorem run_attack_then_plot model input_grad test_loader eps_list
    accuracies examples :
  run_attack model input_grad test_loader eps_list = Ok (accuracies, examples) ->
  length accuracies = length eps_list /\
  length examples = length eps_list /\
  plot_examples eps_list examples = Some (plot_calls eps_list examples).
Proof.
  intros H. apply run_loop_lengths in H. simpl in H. destruct H as [Ha Hx].
  split; [exact Ha|]. split; [exact Hx|].
  rewrite plot_examples_eq, Hx, Nat.leb_refl. reflexivity.
Qed.

Lemma run_attack_then_plot_witness :
  exists accuracies examples,
    run_attack notch_net notch_net_grad shuffling_loader two_epsilons
    = Ok (accuracies, examples) /\
    length accuracies = length two_epsilons /\
    length examples = length two_epsilons /\
    plot_examples two_epsilons examples
    = Some (plot_calls two_epsilons examples).
Proof.
  eexists. eexists. split; [vm_compute; reflexivity|].
  eapply (run_attack_then_plot notch_net notch_net_grad shuffling_loader
            two_epsilons).
  vm_compute. reflexivity.
Defined.

(** With [epsilon = 0] first in the list and at least five samples of the
    test set classified correctly, the first row of examples is full (5
    examples) and no row is longer, so every subplot the plotting loop asks
    for after the run lies on its grid of [len(epsilons)] rows and 5
    columns. *)
Theorem run_attack_plot_on_grid model input_grad test_loader dataset rest :
  (forall x, model x <> []) ->
  (forall x t, same_shape x (input_grad x t)) ->
  (forall k, Permutation dataset (test_loader k)) ->
  (5 <= clean_correct model dataset)%nat ->
  exists accuracies examples calls,
    run_attack model input_grad test_loader (0 :: rest)
    = Ok (accuracies, examples) /\
    plot_examples (0 :: rest) examples = Some calls /\
    Forall (fun call => ncols call = 5%nat /\
                        (1 <= index call <= nrows call * ncols call)%nat) calls.
Proof.
  intros Hm Hg Hp Hfive.
  assert (Hd : dataset <> []).
  { intros ->. unfold clean_correct in Hfive. simpl in Hfive. lia. }
  unfold run_attack.
  destruct (run_loop_spec model input_grad test_loader dataset Hm Hg Hp Hd
              (0 :: rest) 0%nat [] []) as (new & E & Hnew).
  simpl app in E.
  assert (Hlen : length new = length (0 :: rest))
    by (symmetry; exact (Forall2_length Hnew)).
  assert (Hle := Forall2_min_le _ _ _ Hnew).
  assert (Hhd : length (hd [] new) = 5%nat).
  { inversion Hnew as [|eps ex l l' Hex Hrest]; subst. cbn [hd].
    rewrite Hex.
    rewrite (proj1 (eligible_count model input_grad 0 dataset) eq_refl).
    lia. }
  eexists. eexists. eexists. split; [exact E|].
  rewrite plot_examples_eq, Hlen, Nat.leb_refl. split; [reflexivity|].
  unfold plot_calls.
  set (items := concat (map2 (row_items 0) (0 :: rest) new)).
  assert (Hitems : (length items <= length (Q2Qc 0 :: rest) * 5)%nat).
  { unfold items. rewrite <- (length_map snd), (items_content _ _ Hlen), <- Hlen.
    apply length_concat_le, Hle. }
  rewrite Hhd. apply Forall_forall. intros call Hin.
  destruct (proj1 (Forall_forall _ _)
              (number_from_dims (length (0 :: rest)) 5 0 items) call Hin)
    as [-> ->].
  split; [reflexivity|].
  assert (Hidx : In (index call) (seq 1 (length items)))
    by (rewrite <- (number_from_index (length (0 :: rest)) 5 0 items);
        apply in_map, Hin).
  apply in_seq in Hidx. lia.
Qed.

Lemma run_attack_plot_on_grid_witness :
  exists accuracies examples calls,
    run_attack notch_net notch_net_grad steady_loader [0; Q2Qc (1 # 10)]
    = Ok (accuracies, examples) /\
    plot_examples [0; Q2Qc (1 # 10)] examples = Some calls /\
    Forall (fun call => ncols call = 5%nat /\
                        (1 <= index call <= nrows call * ncols call)%nat) calls.
Proof.
  apply (run_attack_plot_on_grid notch_net notch_net_grad steady_loader
           five_samples [Q2Qc (1 # 10)]).
  - intros x. apply notch_model_classes.
  - intros x t. apply notch_grad_shape.
  - intros k. apply Permutation_refl.
  - vm_compute. lia.
Defined.

